(** * shreducers.parse_tree: parse-tree nodes, processors and processor chains

    A shallow embedding of [shreducers/parse_tree.py].  Python objects of
    class [PtNode] live in an explicit store, addressed by location, so that
    the in-place effects of the source (lazy operand materialisation, the
    annotation dictionary, operand replacement during a traversal) and the
    identity of node objects are all visible in the model. *)

From stdpp Require Import gmap strings list pretty.
From Equations Require Import Equations.

Local Open Scope string_scope.
Local Open Scope list_scope.
Local Open Scope nat_scope.
Set Warnings "-register-all".

(** ** Python values *)

Abbreviation loc := nat.

(** The values that appear in parse trees: [None], booleans, integers,
    strings, lists, tuples (the raw form of a node) and references to
    [PtNode] objects. *)
Inductive value : Type :=
| VNone
| VBool (b : bool)
| VInt (z : Z)
| VStr (s : string)
| VList (vs : list value)
| VTuple (vs : list value)
| VRef (l : loc).

(** [isinstance(v, tuple)] *)
Definition is_tuple (v : value) : bool :=
  match v with VTuple _ => true | _ => false end.

(** [isinstance(v, PtNode)] *)
Definition is_node (v : value) : bool :=
  match v with VRef _ => true | _ => false end.

(** [v is None] *)
Definition is_None (v : value) : bool :=
  match v with VNone => true | _ => false end.

(** ** PtNodeExtras and PtNode objects *)

(** The attribute [_x] of a node holds a [PtNodeExtras] dictionary unless the
    constructor was given a fourth positional element, which is stored as it
    is.  No value of the model is a dictionary, so such an element has neither
    the method [update] nor annotations to read or write. *)
Inductive xstore : Type :=
| XExtras (d : gmap string value)
| XOther (v : value).

Record PtNode : Type := mkPtNode {
  _op : value;
  _a : value;
  _b : value;
  _x : xstore
}.

Abbreviation heap := (list PtNode).

(** ** Outcomes of running Python code on a store *)

Inductive exn : Type :=
| PtNodeNotRecognised (node : value)
| AssertionError
| AttributeError
| RuntimeError (msg : string).

(** [Ok] and [Raise] both carry the store: an exception does not undo the
    mutations made before it.  [Fault] is a read through a location that the
    store does not hold (no Python program reaches it); [OutOfFuel] is the
    recursion bound of the model. *)
Inductive result (A : Type) : Type :=
| Ok (a : A) (h : heap)
| Raise (e : exn) (h : heap)
| Fault
| OutOfFuel.
Arguments Ok {A} a h.
Arguments Raise {A} e h.
Arguments Fault {A}.
Arguments OutOfFuel {A}.

Definition M (A : Type) : Type := heap → result A.

#[export] Instance M_ret : MRet M := λ A a h, Ok a h.
#[export] Instance M_bind : MBind M := λ A B f m h,
  match m h with
  | Ok a h' => f a h'
  | Raise e h' => Raise e h'
  | Fault => Fault
  | OutOfFuel => OutOfFuel
  end.

Definition raise {A} (e : exn) : M A := λ h, Raise e h.
Definition out_of_fuel {A} : M A := λ _, OutOfFuel.

Definition load (l : loc) : M PtNode := λ h,
  match h !! l with
  | Some n => Ok n h
  | None => Fault
  end.

Definition store (l : loc) (n : PtNode) : M unit := λ h,
  match h !! l with
  | Some _ => Ok tt (<[l := n]> h)
  | None => Fault
  end.

(** A new object gets the next free location. *)
Definition alloc (n : PtNode) : M loc := λ h, Ok (length h) (h ++ [n]).

(** ** class PtNode *)

(** [PtNode(args)] for a tuple [args]: the fields default to [None] and a
    fresh [PtNodeExtras()], and the first four elements of the tuple
    overwrite [_op], [_a], [_b] and [_x] in that order. *)
Definition PtNode_init (args : list value) : PtNode :=
  {| _op := default VNone (args !! 0);
     _a := default VNone (args !! 1);
     _b := default VNone (args !! 2);
     _x := match args !! 3 with
           | Some v => XOther v
           | None => XExtras ∅
           end |}.

Definition with_a (n : PtNode) (v : value) : PtNode :=
  {| _op := _op n; _a := v; _b := _b n; _x := _x n |}.
Definition with_b (n : PtNode) (v : value) : PtNode :=
  {| _op := _op n; _a := _a n; _b := v; _x := _x n |}.
Definition with_x (n : PtNode) (x : xstore) : PtNode :=
  {| _op := _op n; _a := _a n; _b := _b n; _x := x |}.

(** The setters of the properties [a] and [b]. *)
Definition set_a (l : loc) (v : value) : M unit :=
  n ← load l; store l (with_a n v).
Definition set_b (l : loc) (v : value) : M unit :=
  n ← load l; store l (with_b n v).

(** The getters: a stored tuple is converted to a node, which replaces it. *)
Definition get_a (l : loc) : M value :=
  n ← load l;
  match _a n with
  | VTuple args => l' ← alloc (PtNode_init args); set_a l (VRef l');; mret (VRef l')
  | v => mret v
  end.

Definition get_b (l : loc) : M value :=
  n ← load l;
  match _b n with
  | VTuple args => l' ← alloc (PtNode_init args); set_b l (VRef l');; mret (VRef l')
  | v => mret v
  end.

Definition get_op (l : loc) : M value := n ← load l; mret (_op n).
Definition get_x (l : loc) : M xstore := n ← load l; mret (_x n).

(** [node.x.<key>], for a key that is not the name of a method of [dict]:
    [PtNodeExtras.__getattr__] and [__missing__].  A missing key is first
    stored with the value [None]. *)
Definition x_getattr (l : loc) (key : string) : M value :=
  n ← load l;
  match _x n with
  | XExtras d =>
      match d !! key with
      | Some v => mret v
      | None => store l (with_x n (XExtras (<[key := VNone]> d)));; mret VNone
      end
  | XOther _ => raise AttributeError
  end.

(** [node.x.<key> = v]: [PtNodeExtras.__setattr__]. *)
Definition x_setattr (l : loc) (key : string) (v : value) : M unit :=
  n ← load l;
  match _x n with
  | XExtras d => store l (with_x n (XExtras (<[key := v]> d)))
  | XOther _ => raise AttributeError
  end.

(** [node.x.update(marks)] *)
Definition x_update (l : loc) (marks : gmap string value) : M unit :=
  n ← load l;
  match _x n with
  | XExtras d => store l (with_x n (XExtras (marks ∪ d)))
  | XOther _ => raise AttributeError
  end.

(** The property [operands]. *)
Definition operands (l : loc) : M (list value) :=
  b ← get_b l;
  if is_None b then a ← get_a l; mret [a]
  else a ← get_a l; b ← get_b l; mret [a; b].

(** [mark_operands]: its two statements, one for each operand. *)
Definition mark_operand_a (l : loc) (marks : gmap string value) : M unit :=
  a ← get_a l;
  if is_None a then mret tt
  else a ← get_a l;
       if is_node a then
         a ← get_a l;
         match a with VRef la => x_update la marks | _ => raise AttributeError end
       else mret tt.

Definition mark_operand_b (l : loc) (marks : gmap string value) : M unit :=
  b ← get_b l;
  if is_None b then mret tt
  else b ← get_b l;
       if is_node b then
         b ← get_b l;
         match b with VRef lb => x_update lb marks | _ => raise AttributeError end
       else mret tt.

Definition mark_operands (l : loc) (marks : gmap string value) : M unit :=
  mark_operand_a l marks;; mark_operand_b l marks.

(** Running a computation over the elements of a list, left to right. *)
Fixpoint mapM {A B} (f : A → M B) (xs : list A) : M (list B) :=
  match xs with
  | [] => mret []
  | x :: xs => y ← f x; ys ← mapM f xs; mret (y :: ys)
  end.

Fixpoint to_tuple (fuel : nat) (l : loc) : M value :=
  match fuel with
  | 0 => out_of_fuel
  | S fuel =>
      op ← get_op l;
      abs ← operands l;
      ts ← mapM (λ ab, match ab with
                       | VRef l' => to_tuple fuel l'
                       | _ => mret ab
                       end) abs;
      mret (VTuple (op :: ts))
  end.

(** ** class ParseTreeProcessor *)

(** A handler is a bound method taking a node (or a primitive). *)
Definition handler := value → M value.

(** A function found in the dictionary of a processor class, with the
    attribute [delegate_of] that the decorator of that name may have set. *)
Record method : Type := mkMethod {
  impl : handler;
  delegate_of : option (list string)
}.

(** The class dictionary is enumerated by [__new__] in an order that the
    language does not fix; the list gives that order. *)
Definition class_dict := list (string * method).

Fixpoint lookup_method (name : string) (cd : class_dict) : option method :=
  match cd with
  | [] => None
  | (k, m) :: cd => if decide (k = name) then Some m else lookup_method name cd
  end.

(** An instance of [ParseTreeProcessor] or of a class derived from it: the
    dictionary of its class, what [__new__] bound on the instance, and the
    flag set by [__init__]. *)
Record Processor : Type := mkProcessor {
  cls_dict : class_dict;
  inst_dict : gmap string handler;
  _strict : bool
}.

(** [str(v)] as used by ['process_{}'.format(node.op)].  The rendering of a
    list, a tuple or a node starts with a bracket and is not the name of any
    method; [None] stands for it. *)
Definition py_str (v : value) : option string :=
  match v with
  | VNone => Some "None"
  | VBool true => Some "True"
  | VBool false => Some "False"
  | VInt z => Some (pretty z)
  | VStr s => Some s
  | VList _ | VTuple _ | VRef _ => None
  end.

(** The methods that every processor inherits from [ParseTreeProcessor]. *)
Definition base_process_primitive : handler := λ primitive, mret primitive.

Definition base_process_unrecognised (strict : bool) : handler := λ node,
  if strict then raise (PtNodeNotRecognised node) else mret node.

Definition base_method (strict : bool) (name : string) : option handler :=
  if decide (name = "process_primitive") then Some base_process_primitive
  else if decide (name = "process_unrecognised") then Some (base_process_unrecognised strict)
  else None.

(** Attribute lookup for the names [process_...]: the instance dictionary,
    then the class, then the base class. *)
Definition getattr (p : Processor) (name : string) : option handler :=
  match inst_dict p !! name with
  | Some f => Some f
  | None =>
      match lookup_method name (cls_dict p) with
      | Some m => Some (impl m)
      | None => base_method (_strict p) name
      end
  end.

Definition hasattr (p : Processor) (name : string) : bool :=
  bool_decide (is_Some (getattr p name)).

Definition setattr (p : Processor) (name : string) (f : handler) : Processor :=
  {| cls_dict := cls_dict p; inst_dict := <[name := f]> (inst_dict p); _strict := _strict p |}.

(** [__new__] followed by [__init__]: every function of the class that has a
    [delegate_of] attribute is bound on the instance under each of the names
    listed there. *)
Definition bind_delegates (instance : Processor) (kv : string * method) : Processor :=
  match delegate_of kv.2 with
  | Some ds =>
      foldl (λ instance d,
               match getattr instance kv.1 with
               | Some f => setattr instance d f
               | None => instance
               end) instance ds
  | None => instance
  end.

Definition ParseTreeProcessor_new (cls : class_dict) (strict : bool) : Processor :=
  foldl bind_delegates {| cls_dict := cls; inst_dict := ∅; _strict := strict |} cls.

Definition call_method (p : Processor) (name : string) (arg : value) : M value :=
  match getattr p name with
  | Some f => f arg
  | None => raise AttributeError
  end.

Definition process_primitive (p : Processor) : handler :=
  call_method p "process_primitive".

Definition process_unrecognised (p : Processor) : handler :=
  call_method p "process_unrecognised".

Definition do_process (p : Processor) (node : value) : M value :=
  match node with
  | VRef l =>
      op ← get_op l;
      match py_str op with
      | Some s =>
          let processor_name := "process_" +:+ s in
          if hasattr p processor_name then call_method p processor_name node
          else process_unrecognised p node
      | None => process_unrecognised p node
      end
  | _ => raise AttributeError
  end.

Fixpoint process (fuel : nat) (p : Processor) (node : value) : M value :=
  match fuel with
  | 0 => out_of_fuel
  | S fuel =>
      node ← match node with
             | VTuple args => l ← alloc (PtNode_init args); mret (VRef l)
             | _ => mret node
             end;
      match node with
      | VRef l =>
          a ← get_a l;
          a ← process fuel p a;
          set_a l a;;
          b ← get_b l;
          (if is_None b then mret tt
           else b ← get_b l;
                b ← process fuel p b;
                set_b l b);;
          do_process p node
      | _ => process_primitive p node
      end
  end.

(** ** class ParseTreeMultiProcessor *)

(** A slot of a chain is one processor or a tuple or list of processors.  The
    constructor takes any objects as members, and a chain is itself a
    [ParseTreeProcessor]. *)
Inductive processor : Type :=
| Single (p : Processor)
| Multi (all_slots : list slot)
with slot : Type :=
| One (p : processor)
| Many (ps : list processor).

(** The methods of a processor, by name; a chain looks up the first two on
    its members. *)
Inductive method_name : Type :=
| M_process
| M_do_process
| M_process_primitive
| M_process_unrecognised.

(** [__init__]: only the class [ParseTreeMultiProcessor] itself may be
    instantiated. *)
Definition ParseTreeMultiProcessor_init (class_name : string) (processors : list slot)
  : M processor :=
  if decide (class_name ≠ "ParseTreeMultiProcessor")
  then raise (RuntimeError "Attempting to extend ParseTreeMultiProcessor")
  else mret (Multi processors).

Section MultiProcessor.

(** [getattr(p, method_name)(node)] on a member of a slot. *)
Variable call : processor → method_name → value → M value.

Variable _all_slots : list slot.

Definition _current_slot (_current_slot_index : nat) : list processor :=
  match _all_slots !! _current_slot_index with
  | None => []
  | Some (Many current_slot) => current_slot
  | Some (One current_slot) => [current_slot]
  end.

Fixpoint for_each (ps : list processor) (name : method_name) (node : value) : M value :=
  match ps with
  | [] => mret node
  | p :: ps => node ← call p name node; for_each ps name node
  end.

Definition _process_in_current_slot (_current_slot_index : nat)
    (name : method_name) (node : value) : M value :=
  for_each (_current_slot _current_slot_index) name node.

(** The body of the [while] loop of [process]. *)
Definition slot_pass (_current_slot_index : nat) (node : value) : M value :=
  match node with
  | VRef l =>
      a ← get_a l;
      a ← _process_in_current_slot _current_slot_index M_process a;
      set_a l a;;
      b ← get_b l;
      (if is_None b then mret tt
       else b ← get_b l;
            b ← _process_in_current_slot _current_slot_index M_process b;
            set_b l b);;
      _process_in_current_slot _current_slot_index M_do_process node
  | _ => raise AttributeError
  end.

Equations slot_loop (_current_slot_index : nat) (node : value) (h : heap)
  : result value by wf (length _all_slots - _current_slot_index) lt :=
slot_loop idx node h with decide (idx < length _all_slots) := {
  | right _ => Ok node h
  | left _ with slot_pass idx node h := {
      | Ok node' h' => slot_loop (S idx) node' h'
      | Raise e h' => Raise e h'
      | Fault => Fault
      | OutOfFuel => OutOfFuel } }.
Next Obligation. lia. Qed.

Definition multi_process (node : value) : M value :=
  node ← match node with
         | VTuple args => l ← alloc (PtNode_init args); mret (VRef l)
         | _ => mret node
         end;
  match node with
  | VRef l =>
      is_root ← x_getattr l "is_root";
      if is_None is_root then
        x_setattr l "is_root" (VBool true);;
        mark_operands l {["is_root" := VBool false]};;
        slot_loop 0 node
      else raise AssertionError
  | _ => raise AssertionError
  end.

End MultiProcessor.

(** Method call on a member of a slot, which is a plain processor or again a
    chain; the methods [do_process], [process_primitive] and
    [process_unrecognised] of a chain refuse to run. *)
Fixpoint invoke (fuel : nat) (p : processor) (name : method_name) (node : value) : M value :=
  match fuel with
  | 0 => out_of_fuel
  | S fuel =>
      match p, name with
      | Single p, M_process => process fuel p node
      | Single p, M_do_process => do_process p node
      | Single p, M_process_primitive => process_primitive p node
      | Single p, M_process_unrecognised => process_unrecognised p node
      | Multi all_slots, M_process => multi_process (invoke fuel) all_slots node
      | Multi all_slots, _ => raise (RuntimeError "Do not call this")
      end
  end.

Definition ParseTreeMultiProcessor_process (fuel : nat) (all_slots : list slot) : value → M value :=
  multi_process (invoke fuel) all_slots.

(** ** The chain as the specification words it *)

(** The members of a slot specification: a single processor, or a sequence
    of processors that run back to back. *)
Definition members_of (s : slot) : list processor :=
  match s with
  | One p => [p]
  | Many ps => ps
  end.

(** "Running [v] through every processor in the slot in sequence", each
    consuming the previous one's output: the composition of the members'
    methods from left to right. *)
Definition spec_chain (call : processor → method_name → value → M value)
    (members : list processor) (name : method_name) (v : value) : M value :=
  foldl (λ (acc : M value) p, v ← acc; call p name v) (mret v) members.

(** Steps 4a to 4c for one slot: operand A, then operand B when present,
    are replaced by their image through the members' [process]; then the
    node goes through the members' [do_process]. *)
Definition spec_stage (call : processor → method_name → value → M value)
    (members : list processor) (node : value) : M value :=
  match node with
  | VRef l =>
      a ← get_a l;
      a ← spec_chain call members M_process a;
      set_a l a;;
      b ← get_b l;
      (if is_None b then mret tt
       else b ← spec_chain call members M_process b; set_b l b);;
      spec_chain call members M_do_process node
  | _ => raise AttributeError
  end.

(** Step 4: for each slot, in order. *)
Fixpoint spec_stages (call : processor → method_name → value → M value)
    (slots : list slot) (node : value) : M value :=
  match slots with
  | [] => mret node
  | s :: slots => node ← spec_stage call (members_of s) node; spec_stages call slots node
  end.

(** Steps 1 to 5 of [process]. *)
Definition spec_multi_process (call : processor → method_name → value → M value)
    (slots : list slot) (node : value) : M value :=
  node ← match node with
         | VTuple args => l ← alloc (PtNode_init args); mret (VRef l)
         | _ => mret node
         end;
  match node with
  | VRef l =>
      is_root ← x_getattr l "is_root";
      if is_None is_root then
        x_setattr l "is_root" (VBool true);;
        mark_operands l {["is_root" := VBool false]};;
        spec_stages call slots node
      else raise AssertionError
  | _ => raise AssertionError
  end.

(** ** Handlers of a processor *)

(** The handlers that a processor class defines or that [__new__] bound on
    the instance, as opposed to the two methods of the base class. *)
Definition user_handler (p : Processor) (name : string) : option handler :=
  match inst_dict p !! name with
  | Some f => Some f
  | None => impl <$> lookup_method name (cls_dict p)
  end.

(** The processor has a handler of its own named after the operator. *)
Definition handler_for (p : Processor) (op : value) : option handler :=
  s ← py_str op; user_handler p ("process_" +:+ s).

(** The operators on which the default dispatch of [p] does not raise: those
    with a handler, all of them when [p] is not strict, and the operator
    named like the inherited method [process_primitive]. *)
Definition dispatch_ok (p : Processor) (op : value) : bool :=
  bool_decide (is_Some (handler_for p op))
  || negb (_strict p)
  || bool_decide (py_str op = Some "primitive").

(** A computation that raises no exception, whatever the store. *)
Definition never_raises {A} (m : M A) : Prop := ∀ h e h', m h ≠ Raise e h'.

(** ** Raw trees *)

(** A value that is neither a tuple nor a node: a leaf of a parse tree. *)
Definition is_primitive (v : value) : bool := negb (is_tuple v) && negb (is_node v).

(** The raw form of a parse tree, as the parser hands it over: a leaf, or
    an operator with one or two operands. *)
Inductive raw : Type :=
| RLeaf (v : value)
| RUn (op : value) (a : raw)
| RBin (op : value) (a b : raw).

(** The Python value of a raw tree: nested tuples of length 2 and 3. *)
Fixpoint encode (t : raw) : value :=
  match t with
  | RLeaf v => v
  | RUn op a => VTuple [op; encode a]
  | RBin op a b => VTuple [op; encode a; encode b]
  end.

(** The leaves of a raw tree are primitives. *)
Fixpoint wf_raw (t : raw) : bool :=
  match t with
  | RLeaf v => is_primitive v
  | RUn _ a => wf_raw a
  | RBin _ a b => wf_raw a && wf_raw b
  end.

(** The second operand of a binary node is never the leaf [None]. *)
Fixpoint b_present (t : raw) : bool :=
  match t with
  | RLeaf _ => true
  | RUn _ a => b_present a
  | RBin _ a b => negb (is_None (encode b)) && b_present a && b_present b
  end.

(** The tuple of a raw tree in which a second operand [None] is left out. *)
Fixpoint canon (t : raw) : value :=
  match t with
  | RLeaf v => v
  | RUn op a => VTuple [op; canon a]
  | RBin op a b =>
      if is_None (encode b) then VTuple [op; canon a]
      else VTuple [op; canon a; canon b]
  end.

Fixpoint depth (t : raw) : nat :=
  match t with
  | RLeaf _ => 0
  | RUn _ a => S (depth a)
  | RBin _ a b => S (depth a `max` depth b)
  end.

(** Operator and operands of a node; a unary node has [None] as its second
    operand. *)
Definition kids (t : raw) : option (value * raw * raw) :=
  match t with
  | RLeaf _ => None
  | RUn op a => Some (op, a, RLeaf VNone)
  | RBin op a b => Some (op, a, b)
  end.

(** [grows l h h']: the store [h'] extends [h], and agrees with it on the
    locations of [h] other than [l]. *)
Definition grows (l : loc) (h h' : heap) : Prop :=
  length h ≤ length h' ∧ ∀ k, k < length h → k ≠ l → h' !! k = h !! k.

(** [fresh_at h v t]: the value [v] stands for the raw tree [t] right after
    it was read as an operand: a leaf is the primitive itself, a node is a
    reference to an object built by [PtNode] from the tuple of [t], whose own
    operands are still tuples. *)
Definition fresh_at (h : heap) (v : value) (t : raw) : Prop :=
  match kids t with
  | None => v = encode t
  | Some (op, a, b) =>
      ∃ l n, v = VRef l ∧ h !! l = Some n
           ∧ _op n = op ∧ _a n = encode a ∧ _b n = encode b
  end.

(** [mat lo hi h v t]: the value [v] is the raw tree [t] with every node
    converted, and all its nodes lie at the locations from [lo] up to, not
    including, [hi]. *)
Inductive mat (lo hi : nat) (h : heap) : value → raw → Prop :=
| mat_leaf v :
    is_primitive v = true → mat lo hi h v (RLeaf v)
| mat_node l n t op a b :
    kids t = Some (op, a, b) → lo ≤ l < hi → h !! l = Some n → _op n = op →
    mat lo hi h (_a n) a → mat lo hi h (_b n) b →
    mat lo hi h (VRef l) t.

(** [rooted lo hi h v t]: as [mat], but only the nodes below the root are
    confined to the locations from [lo] to [hi]. *)
Definition rooted (lo hi : nat) (h : heap) (v : value) (t : raw) : Prop :=
  match kids t with
  | None => v = encode t
  | Some (op, a, b) =>
      ∃ l n, v = VRef l ∧ h !! l = Some n ∧ _op n = op
           ∧ mat lo hi h (_a n) a ∧ mat lo hi h (_b n) b
  end.

(** Every node from location [m] on has an empty annotation dictionary. *)
Definition blank_from (m : nat) (h : heap) : Prop :=
  ∀ k n, m ≤ k → h !! k = Some n → _x n = XExtras ∅.

(** [extends h h']: every node of [h] is still there in [h'] with the same
    operator and annotations, and the nodes added have no annotations. *)
Definition extends (h h' : heap) : Prop :=
  length h ≤ length h'
  ∧ (∀ k n, h !! k = Some n → ∃ n', h' !! k = Some n' ∧ _x n' = _x n ∧ _op n' = _op n)
  ∧ blank_from (length h) h'.

(** [ok] holds of the operator of every node of the tree. *)
Fixpoint all_ok (ok : value → bool) (t : raw) : bool :=
  match t with
  | RLeaf _ => true
  | RUn op a => all_ok ok a && ok op
  | RBin op a b => all_ok ok a && all_ok ok b && ok op
  end.

(** [marked h t hm va vb]: the store [hm] right after the [process] method of
    a chain, entered in store [h] with the tuple of the node [t], has marked
    the root and its operands.  The root is at the first free location of
    [h], with operands [va] and [vb] that are read but not yet traversed;
    besides the root only the operand nodes were created. *)
Definition marked (h : heap) (t : raw) (hm : heap) (va vb : value) : Prop :=
  ∃ op a b nl,
    kids t = Some (op, a, b)
    ∧ hm !! length h = Some nl
    ∧ _op nl = op ∧ _a nl = va ∧ _b nl = vb
    ∧ _x nl = XExtras {["is_root" := VBool true]}
    ∧ fresh_at hm va a ∧ fresh_at hm vb b
    ∧ is_tuple va = false ∧ is_tuple vb = false
    ∧ length h < length hm
    ∧ (∀ k, k < length h → hm !! k = h !! k)
    ∧ (∀ k, length h < k < length hm → va = VRef k ∨ vb = VRef k)
    ∧ (∀ k, va = VRef k ∨ vb = VRef k →
         length h < k < length hm
         ∧ ∃ nk, hm !! k = Some nk ∧ _x nk = XExtras {["is_root" := VBool false]})
    ∧ (∀ k, va = VRef k → vb = VRef k → False).

(** A processor that lets every node and every primitive through as it is,
    such as [ParseTreeProcessor()]. *)
Definition declines (p : Processor) : Prop :=
  (∀ v h, is_primitive v = true → process_primitive p v h = Ok v h)
  ∧ (∀ l h n, h !! l = Some n → do_process p (VRef l) h = Ok (VRef l) h).

Definition passive (m : processor) : Prop := ∃ p, m = Single p ∧ declines p.

Definition passive_slot (s : slot) : Prop :=
  match s with
  | One m => passive m
  | Many ms => Forall passive ms
  end.

(** [settled N0 h v t]: the operand [v] of the root stands for the raw tree
    [t], either just read or fully converted with all nodes below it at
    locations from [N0] on. *)
Definition settled (N0 : nat) (h : heap) (v : value) (t : raw) : Prop :=
  fresh_at h v t ∨ ∃ lo hi, N0 ≤ lo ≤ hi ∧ hi ≤ length h ∧ rooted lo hi h v t.

(** What every pass of a chain of passive processors keeps true of the
    store [H], for a root at the first free location of [h0] with operator
    [op] and operands [va], [vb] standing for the raw trees [a], [b]: the
    annotations of the root and of its operands are as the marking left
    them, the nodes from [N0] on have none, and the old store is intact. *)
Definition chain_inv (h0 : heap) (op : value) (a b : raw) (va vb : value) (N0 : nat)
    (H : heap) : Prop :=
  (∃ nl, H !! length h0 = Some nl ∧ _op nl = op ∧ _a nl = va ∧ _b nl = vb
       ∧ _x nl = XExtras {["is_root" := VBool true]})
  ∧ settled N0 H va a ∧ settled N0 H vb b ∧ N0 ≤ length H
  ∧ (∀ k, k < length h0 → H !! k = h0 !! k)
  ∧ (∀ k, va = VRef k ∨ vb = VRef k →
       ∃ nk, H !! k = Some nk ∧ _x nk = XExtras {["is_root" := VBool false]})
  ∧ blank_from N0 H.

(** ** Sample processors and trees *)

(** [ParseTreeProcessor()] and [ParseTreeProcessor(strict=True)]. *)
Definition plain : Processor := ParseTreeProcessor_new [] false.
Definition strict_plain : Processor := ParseTreeProcessor_new [] true.

(** [("x", ("y", 1), ("z", 2))] *)
Definition xyz : value :=
  VTuple [VStr "x"; VTuple [VStr "y"; VInt 1]; VTuple [VStr "z"; VInt 2]].

(** A processor class with a method [arith], decorated with
    [delegate_of('process_add', 'process_sub')], that notes the operator it
    was called for in the annotation [seen] of the node, and an ordinary
    handler [process_neg]. *)
Definition arith : handler := λ node,
  match node with
  | VRef l => op ← get_op l; x_setattr l "seen" op;; mret node
  | _ => raise AttributeError
  end.

Definition ArithProcessor : class_dict :=
  [("process_neg", {| impl := λ node, mret node; delegate_of := None |});
   ("arith", {| impl := arith; delegate_of := Some ["process_add"; "process_sub"] |})].

(** Three processors for a chain [ParseTreeMultiProcessor(P1, [P2, P3])].
    [P1] sets the annotation [seen1] of every node.  [P2] and [P3] each
    append their name to the annotation [seenOrder] of every node, and note
    under [saw1] what they read in [seen1]. *)
Definition tag_seen1 : handler := λ node,
  match node with
  | VRef l => x_setattr l "seen1" (VBool true);; mret node
  | _ => raise AttributeError
  end.

Definition append_name (name : string) : handler := λ node,
  match node with
  | VRef l =>
      seen ← x_getattr l "seenOrder";
      x_setattr l "seenOrder"
        (VList (match seen with VList vs => vs | _ => [] end ++ [VStr name]));;
      seen1 ← x_getattr l "seen1";
      saw ← x_getattr l "saw1";
      x_setattr l "saw1"
        (VList (match saw with VList vs => vs | _ => [] end ++ [seen1]));;
      mret node
  | _ => raise AttributeError
  end.

Definition P1 : Processor :=
  ParseTreeProcessor_new
    [("process_unrecognised", {| impl := tag_seen1; delegate_of := None |})] false.
Definition P2 : Processor :=
  ParseTreeProcessor_new
    [("process_unrecognised", {| impl := append_name "P2"; delegate_of := None |})] false.
Definition P3 : Processor :=
  ParseTreeProcessor_new
    [("process_unrecognised", {| impl := append_name "P3"; delegate_of := None |})] false.

(** [["op", 1, 2]], a list shaped like a raw node. *)
Definition op_list : value := VList [VStr "op"; VInt 1; VInt 2].

(** ** The constructor of [PtNode] in full, and the setter of [op] *)

Definition with_op (n : PtNode) (v : value) : PtNode :=
  {| _op := v; _a := _a n; _b := _b n; _x := _x n |}.

(** The setter of the property [op]. *)
Definition set_op (l : loc) (v : value) : M unit :=
  n ← load l; store l (with_op n v).

(** The elements of a value that has a length and can be indexed: those of a
    tuple or a list, and the one-character strings of a string.  The other
    values have no [len]. *)
Definition py_items (v : value) : option (list value) :=
  match v with
  | VTuple vs | VList vs => Some vs
  | VStr s => Some ((λ c, VStr (String c EmptyString)) <$> String.list_ascii_of_string s)
  | VNone | VBool _ | VInt _ | VRef _ => None
  end.

(** A call of [PtNode] with positional and keyword arguments returns a node
    or raises [TypeError]; [NotModelled] stands for a call that sets an
    attribute the model of a node has no place for. *)
Inductive construction : Type :=
| Constructed (n : PtNode)
| RaisesTypeError
| NotModelled.

(** [setattr(self, '_' + k, v)].  The four attributes that the methods of
    the class read are the fields of the record.  An attribute of another
    name is read by no method; when [k] starts with an underscore its name
    starts with two, and may be one that the language gives a meaning of
    its own, which is left out of the model. *)
Definition set_field (n : PtNode) (k : string) (v : value) : option PtNode :=
  if decide (k = "op") then Some (with_op n v)
  else if decide (k = "a") then Some (with_a n v)
  else if decide (k = "b") then Some (with_b n v)
  else if decide (k = "x") then Some (with_x n (XOther v))
  else if String.prefix "_" k then None
  else Some n.

(** The node before any argument is looked at. *)
Definition PtNode_blank : PtNode :=
  {| _op := VNone; _a := VNone; _b := VNone; _x := XExtras ∅ |}.

(** The loop over the first four positional arguments. *)
Definition set_positional (items : list value) (n : PtNode) : option PtNode :=
  foldl (λ (n : option PtNode) (ik : nat * string),
           n ← n;
           match items !! ik.1 with
           | Some v => set_field n ik.2 v
           | None => Some n
           end)
    (Some n) [(0, "op"); (1, "a"); (2, "b"); (3, "x")].

(** The loop over the keyword arguments, in the order in which the
    dictionary [kwargs] enumerates them. *)
Definition set_keywords (kwargs : list (string * value)) (n : PtNode) : option PtNode :=
  foldl (λ (n : option PtNode) (kv : string * value), n ← n; set_field n kv.1 kv.2)
    (Some n) kwargs.

(** [__init__]: a single positional argument is taken for the sequence of
    the arguments; then the first four arguments set [op], [a], [b] and [x];
    then the keyword arguments set the attributes they name. *)
Definition PtNode_call (args : list value) (kwargs : list (string * value)) : construction :=
  let positional :=
    match args with
    | [] => Some []
    | [v] => py_items v
    | _ => Some args
    end in
  match positional with
  | None => RaisesTypeError
  | Some items =>
      match set_positional items PtNode_blank ≫= set_keywords kwargs with
      | Some n => Constructed n
      | None => NotModelled
      end
  end.

(** ** Marks on operands that are nodes *)

(** A node after [x.update(marks)]: the marks are entered in its annotation
    dictionary, over what was there under the same names. *)
Definition with_marks (marks : gmap string value) (n : PtNode) : PtNode :=
  match _x n with
  | XExtras d => with_x n (XExtras (marks ∪ d))
  | XOther _ => n
  end.

(** The store after the operand [v] has received the marks, when it is a
    node; any other operand leaves the store as it is. *)
Definition mark_in (marks : gmap string value) (v : value) (h : heap) : heap :=
  match v with
  | VRef k => alter (with_marks marks) k h
  | _ => h
  end.

(** * Properties *)

(** ** The store monad *)

Lemma bind_Ok {A B} (m : M A) (f : A → M B) h a h' :
  m h = Ok a h' → (m ≫= f) h = f a h'.
Proof. intros E. unfold mbind, M_bind. by rewrite E. Qed.

Lemma bind_Raise {A B} (m : M A) (f : A → M B) h e h' :
  m h = Raise e h' → (m ≫= f) h = Raise e h'.
Proof. intros E. unfold mbind, M_bind. by rewrite E. Qed.

Lemma bind_assoc {A B C} (m : M A) (f : A → M B) (g : B → M C) h :
  ((m ≫= f) ≫= g) h = (m ≫= λ x, f x ≫= g) h.
Proof. unfold mbind, M_bind. by destruct (m h). Qed.

Lemma ret_bind {A B} (a : A) (f : A → M B) h : (mret a ≫= f) h = f a h.
Proof. reflexivity. Qed.

Lemma load_Ok h l n : h !! l = Some n → load l h = Ok n h.
Proof. intros E. unfold load. by rewrite E. Qed.

Lemma store_Ok h l n n' : h !! l = Some n → store l n' h = Ok tt (<[l := n']> h).
Proof. intros E. unfold store. by rewrite E. Qed.

Lemma alloc_Ok h n : alloc n h = Ok (length h) (h ++ [n]).
Proof. reflexivity. Qed.

Lemma set_a_Ok h l n v : h !! l = Some n → set_a l v h = Ok tt (<[l := with_a n v]> h).
Proof.
  intros E. unfold set_a. rewrite (bind_Ok _ _ _ _ _ (load_Ok _ _ _ E)).
  by apply store_Ok with n.
Qed.

Lemma set_b_Ok h l n v : h !! l = Some n → set_b l v h = Ok tt (<[l := with_b n v]> h).
Proof.
  intros E. unfold set_b. rewrite (bind_Ok _ _ _ _ _ (load_Ok _ _ _ E)).
  by apply store_Ok with n.
Qed.

(** Reading an operand that is not stored as a tuple has no effect. *)
Lemma get_a_pure h l n : h !! l = Some n → is_tuple (_a n) = false → get_a l h = Ok (_a n) h.
Proof.
  intros E T. unfold get_a. rewrite (bind_Ok _ _ _ _ _ (load_Ok _ _ _ E)).
  by destruct (_a n).
Qed.

Lemma get_b_pure h l n : h !! l = Some n → is_tuple (_b n) = false → get_b l h = Ok (_b n) h.
Proof.
  intros E T. unfold get_b. rewrite (bind_Ok _ _ _ _ _ (load_Ok _ _ _ E)).
  by destruct (_b n).
Qed.

(** Reading an operand stored as a tuple allocates the node and links it. *)
Lemma get_a_tuple h l n args :
  h !! l = Some n → _a n = VTuple args →
  get_a l h = Ok (VRef (length h)) (<[l := with_a n (VRef (length h))]> (h ++ [PtNode_init args])).
Proof.
  intros E T. unfold get_a. rewrite (bind_Ok _ _ _ _ _ (load_Ok _ _ _ E)), T.
  rewrite (bind_Ok _ _ _ _ _ (alloc_Ok _ _)).
  erewrite bind_Ok; [done|]. apply set_a_Ok.
  by rewrite lookup_app_l by (by eapply lookup_lt_Some).
Qed.

Lemma get_b_tuple h l n args :
  h !! l = Some n → _b n = VTuple args →
  get_b l h = Ok (VRef (length h)) (<[l := with_b n (VRef (length h))]> (h ++ [PtNode_init args])).
Proof.
  intros E T. unfold get_b. rewrite (bind_Ok _ _ _ _ _ (load_Ok _ _ _ E)), T.
  rewrite (bind_Ok _ _ _ _ _ (alloc_Ok _ _)).
  erewrite bind_Ok; [done|]. apply set_b_Ok.
  by rewrite lookup_app_l by (by eapply lookup_lt_Some).
Qed.

(** ** Lazy materialisation of operands *)

Lemma lookup_linked (h : heap) l n' new :
  l < length h → (<[l := n']> (h ++ [new])) !! l = Some n'.
Proof. intros. apply list_lookup_insert_eq. rewrite length_app. lia. Qed.

Lemma lookup_new (h : heap) l n' new :
  l < length h → (<[l := n']> (h ++ [new])) !! length h = Some new.
Proof.
  intros. rewrite list_lookup_insert_ne by lia.
  rewrite lookup_app_r by lia. by rewrite Nat.sub_diag.
Qed.

(** C8. The first read of an operand stored in raw form (a tuple) creates
    one node, at a location that was free, and stores the reference in place
    of the tuple; a second read returns that same reference and leaves the
    store as it is, so nothing is converted or allocated again.  This holds
    for operand [a] and for operand [b]. *)
Theorem operand_read_is_memoised (h : heap) (l : loc) (n : PtNode) (args : list value) :
  h !! l = Some n →
  (_a n = VTuple args →
     ∃ h', get_a l h = Ok (VRef (length h)) h'
         ∧ length h' = S (length h)
         ∧ h' !! length h = Some (PtNode_init args)
         ∧ h' !! l = Some (with_a n (VRef (length h)))
         ∧ get_a l h' = Ok (VRef (length h)) h')
  ∧ (_b n = VTuple args →
     ∃ h', get_b l h = Ok (VRef (length h)) h'
         ∧ length h' = S (length h)
         ∧ h' !! length h = Some (PtNode_init args)
         ∧ h' !! l = Some (with_b n (VRef (length h)))
         ∧ get_b l h' = Ok (VRef (length h)) h').
Proof.
  intros E. pose proof (lookup_lt_Some _ _ _ E) as Hl. split; intros T.
  - eexists. split; [by apply get_a_tuple|].
    split; [rewrite length_insert, length_app; cbn; lia|].
    split; [by apply lookup_new|].
    split; [by apply lookup_linked|].
    by rewrite (get_a_pure _ _ _ (lookup_linked _ _ (with_a n (VRef (length h))) _ Hl)).
  - eexists. split; [by apply get_b_tuple|].
    split; [rewrite length_insert, length_app; cbn; lia|].
    split; [by apply lookup_new|].
    split; [by apply lookup_linked|].
    by rewrite (get_b_pure _ _ _ (lookup_linked _ _ (with_b n (VRef (length h))) _ Hl)).
Qed.

Lemma operand_read_is_memoised_witness :
  let h := [PtNode_init [VStr "neg"; VTuple [VStr "lit"; VInt 1]]] in
  ∃ h', get_a 0 h = Ok (VRef 1) h' ∧ length h' = 2
      ∧ h' !! 1 = Some (PtNode_init [VStr "lit"; VInt 1])
      ∧ h' !! 0 = Some (with_a (PtNode_init [VStr "neg"; VTuple [VStr "lit"; VInt 1]]) (VRef 1))
      ∧ get_a 0 h' = Ok (VRef 1) h'.
Proof.
  intros h.
  exact (proj1 (operand_read_is_memoised h 0 _ [VStr "lit"; VInt 1] eq_refl) eq_refl).
Defined.

(** C10. A value that is neither a tuple nor a node is a primitive for
    [process]: no node is created for it, the primitive handler receives it,
    and the inherited primitive handler returns it with the store unchanged.
    Stored as an operand, it is read back as it is, again without any
    conversion.  The [process] method of a chain does not convert it either:
    it raises [AssertionError] and leaves the store as it was. *)
Theorem only_tuples_are_raw (p : Processor) (v : value) (fuel : nat) (h : heap) :
  is_tuple v = false → is_node v = false →
  process (S fuel) p v h = process_primitive p v h
  ∧ (getattr p "process_primitive" = Some base_process_primitive →
     process (S fuel) p v h = Ok v h)
  ∧ (∀ l n, h !! l = Some n →
       (_a n = v → get_a l h = Ok v h) ∧ (_b n = v → get_b l h = Ok v h))
  ∧ (∀ all_slots,
       ParseTreeMultiProcessor_process fuel all_slots v h = Raise AssertionError h).
Proof.
  intros T N.
  assert (process (S fuel) p v h = process_primitive p v h) as E
    by (by destruct v).
  split; [done|]. split; [|split].
  - intros G. rewrite E. unfold process_primitive, call_method. by rewrite G.
  - intros l n Hn. split; intros <-.
    + by apply get_a_pure.
    + by apply get_b_pure.
  - intros all_slots. by destruct v.
Qed.

Lemma only_tuples_are_raw_witness :
  let h := [PtNode_init [VStr "f"; op_list]] in
  process 1 plain op_list h = Ok op_list h ∧ get_a 0 h = Ok op_list h.
Proof.
  intros h.
  destruct (only_tuples_are_raw plain op_list 0 h eq_refl eq_refl) as (_ & P & R & _).
  split; [by apply P|]. by apply (R 0 _ eq_refl).
Defined.

(** ** The entry point of a chain *)

(** C5, as amended. The root given to the [process] method of a chain must
    be a node or a tuple: for any other value, [process] raises
    [AssertionError] and leaves the store as it was, whatever the slots are;
    the primitive handler of a chain raises [RuntimeError]. *)
Theorem multi_process_rejects_primitive_root
    (fuel : nat) (all_slots : list slot) (v : value) (h : heap) :
  is_tuple v = false → is_node v = false →
  ParseTreeMultiProcessor_process fuel all_slots v h = Raise AssertionError h
  ∧ invoke (S fuel) (Multi all_slots) M_process v h = Raise AssertionError h
  ∧ invoke (S fuel) (Multi all_slots) M_process_primitive v h
    = Raise (RuntimeError "Do not call this") h.
Proof.
  intros T N. by destruct v.
Qed.

Lemma multi_process_rejects_primitive_root_witness :
  ParseTreeMultiProcessor_process 3 [One (Single plain)] (VInt 7) [] = Raise AssertionError [].
Proof.
  exact (proj1 (multi_process_rejects_primitive_root 3 [One (Single plain)] (VInt 7) []
                  eq_refl eq_refl)).
Defined.

(** C5, as stated, fails: on the primitive root [7] the [process] method of
    the chain [ParseTreeMultiProcessor(ParseTreeProcessor())] returns no
    value at all, for any recursion bound. *)
Lemma multi_process_primitive_root_returns_nothing :
  ¬ ∃ fuel v h', ParseTreeMultiProcessor_process fuel [One (Single plain)] (VInt 7) [] = Ok v h'.
Proof. intros (fuel & v & h' & E). discriminate E. Qed.

(** ** Delegation *)

Section Delegation.

Variable cls : class_dict.
Variable strict : bool.

Lemma lookup_method_elem (cd : class_dict) k m :
  NoDup cd.*1 → (k, m) ∈ cd → lookup_method k cd = Some m.
Proof.
  induction cd as [|[k' m'] cd IH]; intros ND E.
  - by apply elem_of_nil in E.
  - cbn in *. apply NoDup_cons in ND as [Hk ND].
    apply elem_of_cons in E as [E|E].
    + injection E as -> ->. by rewrite decide_True.
    + rewrite decide_False; [by apply IH|].
      intros ->. apply Hk. apply list_elem_of_fmap. by exists (k, m).
Qed.

(** The names bound while one function is handled are the names it lists. *)
Lemma bind_names_other (ds : list string) (k name : string) (inst : Processor) :
  name ∉ ds →
  let inst' := foldl (λ instance d,
                        match getattr instance k with
                        | Some f => setattr instance d f
                        | None => instance
                        end) inst ds in
  inst_dict inst' !! name = inst_dict inst !! name
  ∧ cls_dict inst' = cls_dict inst ∧ _strict inst' = _strict inst.
Proof.
  revert inst. induction ds as [|d ds IH]; intros inst Hn; [done|].
  apply not_elem_of_cons in Hn as [Hd Hn]. cbn.
  destruct (IH (match getattr inst k with
                | Some f => setattr inst d f
                | None => inst
                end) Hn) as (-> & -> & ->).
  destruct (getattr inst k); [|done]. cbn. by rewrite lookup_insert_ne.
Qed.

Lemma bind_delegates_other (inst : Processor) (kv : string * method) (name : string) :
  (∀ ds, delegate_of kv.2 = Some ds → name ∉ ds) →
  inst_dict (bind_delegates inst kv) !! name = inst_dict inst !! name.
Proof.
  intros Hn. unfold bind_delegates. destruct (delegate_of kv.2) as [ds|]; [|done].
  by apply bind_names_other, Hn.
Qed.

Lemma bind_delegates_class (inst : Processor) (kv : string * method) :
  cls_dict (bind_delegates inst kv) = cls_dict inst.
Proof.
  unfold bind_delegates. destruct (delegate_of kv.2) as [ds|]; [|done].
  revert inst. induction ds as [|d ds IH]; intros inst; [done|].
  cbn. rewrite IH. by destruct (getattr inst kv.1).
Qed.

Lemma getattr_setattr_same (inst : Processor) (d k : string) (f : handler) :
  getattr inst k = Some f → getattr (setattr inst d f) k = Some f.
Proof.
  unfold getattr, setattr. cbn. intros G. destruct (decide (d = k)) as [->|Hne].
  - by rewrite lookup_insert_eq.
  - by rewrite lookup_insert_ne.
Qed.

(** While the function [k] is handled, a name already bound to its
    implementation stays bound to it. *)
Lemma bind_names_keep (ds : list string) (k d : string) (f : handler) : ∀ inst,
  getattr inst k = Some f → inst_dict inst !! d = Some f →
  inst_dict (foldl (λ instance d,
                      match getattr instance k with
                      | Some f => setattr instance d f
                      | None => instance
                      end) inst ds) !! d = Some f.
Proof.
  induction ds as [|d' ds IH]; intros inst G Hd; [done|].
  cbn. rewrite G. apply IH; [by apply getattr_setattr_same|].
  cbn. destruct (decide (d' = d)) as [->|Hne].
  - by rewrite lookup_insert_eq.
  - by rewrite lookup_insert_ne.
Qed.

Lemma bind_names_self (ds : list string) (k d : string) (f : handler) : ∀ inst,
  d ∈ ds → getattr inst k = Some f →
  inst_dict (foldl (λ instance d,
                      match getattr instance k with
                      | Some f => setattr instance d f
                      | None => instance
                      end) inst ds) !! d = Some f.
Proof.
  induction ds as [|d' ds IH]; intros inst Hd G.
  - by apply elem_of_nil in Hd.
  - cbn. rewrite G. destruct (decide (d' = d)) as [->|Hne].
    + apply bind_names_keep; [by apply getattr_setattr_same|].
      cbn. by rewrite lookup_insert_eq.
    + apply elem_of_cons in Hd as [->|Hd]; [done|].
      apply IH; [done|by apply getattr_setattr_same].
Qed.

Lemma foldl_bind_delegates_other (cd : class_dict) (inst : Processor) (name : string) :
  (∀ kv ds, kv ∈ cd → delegate_of kv.2 = Some ds → name ∉ ds) →
  inst_dict (foldl bind_delegates inst cd) !! name = inst_dict inst !! name.
Proof.
  revert inst. induction cd as [|kv cd IH]; intros inst Hn; [done|].
  cbn. rewrite IH.
  - apply bind_delegates_other. intros ds. apply Hn. by left.
  - intros kv' ds Hin. apply Hn. by right.
Qed.

Lemma foldl_bind_delegates_class (cd : class_dict) (inst : Processor) :
  cls_dict (foldl bind_delegates inst cd) = cls_dict inst.
Proof.
  revert inst. induction cd as [|kv cd IH]; intros inst; [done|].
  cbn. by rewrite IH, bind_delegates_class.
Qed.

(** C7. In a class whose dictionary has a function [k] decorated with
    [delegate_of(ds)], where no other function of the class lists [k] or a
    name of [ds], the new instance has every name of [ds] bound to the
    implementation of [k], whatever the order in which the dictionary is
    enumerated.  Hence for every operator [tag] with ["process_" + tag] in
    [ds], [do_process] on a node with that operator runs this one
    implementation on the node. *)
Theorem delegates_share_one_implementation (k : string) (m : method) (ds : list string) :
  NoDup cls.*1 → (k, m) ∈ cls → delegate_of m = Some ds →
  (∀ k' m' ds', (k', m') ∈ cls → k' ≠ k → delegate_of m' = Some ds' →
     (k ∉ ds') ∧ (∀ d, d ∈ ds → d ∉ ds')) →
  ∀ tag, ("process_" +:+ tag) ∈ ds →
    getattr (ParseTreeProcessor_new cls strict) ("process_" +:+ tag) = Some (impl m)
    ∧ ∀ h l n, h !! l = Some n → _op n = VStr tag →
        do_process (ParseTreeProcessor_new cls strict) (VRef l) h = impl m (VRef l) h.
Proof.
  intros ND Hk Hds Hsep tag Htag.
  assert (getattr (ParseTreeProcessor_new cls strict) ("process_" +:+ tag) = Some (impl m)) as G.
  { unfold ParseTreeProcessor_new.
    pose proof (lookup_method_elem cls k m ND Hk) as Hlook.
    apply list_elem_of_split in Hk as (pre & post & Hcls).
    set (inst0 := {| cls_dict := cls; inst_dict := ∅; _strict := strict |}).
    assert (∀ kv, kv ∈ pre ∨ kv ∈ post → kv.1 ≠ k) as Hne.
    { intros [k' m'] Hin E. cbn in E. subst k'.
      rewrite Hcls, fmap_app, fmap_cons in ND. cbn in ND.
      apply NoDup_app in ND as (_ & Hd & ND). apply NoDup_cons in ND as [Hp _].
      destruct Hin as [Hin|Hin].
      - apply (Hd k); [|by left]. by eapply list_elem_of_fmap_2'; [exact Hin|].
      - apply Hp. by eapply list_elem_of_fmap_2'; [exact Hin|]. }
    assert (∀ kv ds', kv ∈ pre ∨ kv ∈ post → delegate_of kv.2 = Some ds' →
              (k ∉ ds') ∧ (("process_" +:+ tag) ∉ ds')) as Hoth.
    { intros [k' m'] ds' Hin Hd'.
      assert ((k', m') ∈ cls) as Hc
        by (rewrite Hcls, elem_of_app, elem_of_cons; tauto).
      destruct (Hsep k' m' ds' Hc (Hne (k', m') Hin) Hd') as [H1 H2].
      split; [done|by apply H2]. }
    unfold getattr.
    replace (foldl bind_delegates inst0 cls)
      with (foldl bind_delegates (bind_delegates (foldl bind_delegates inst0 pre) (k, m)) post)
      by (by rewrite Hcls, foldl_app).
    rewrite foldl_bind_delegates_other
      by (intros kv ds' Hin Hd'; by apply (Hoth kv ds' (or_intror Hin))).
    unfold bind_delegates at 1. cbn [snd fst]. rewrite Hds.
    rewrite (bind_names_self ds k _ (impl m)); [done|done|].
    unfold getattr. rewrite foldl_bind_delegates_other
      by (intros kv ds' Hin Hd'; by apply (Hoth kv ds' (or_introl Hin))).
    rewrite foldl_bind_delegates_class. cbn. by rewrite lookup_empty, Hlook. }
  split; [done|]. intros h l n Hl Hop.
  unfold do_process, get_op.
  erewrite bind_Ok; [|erewrite bind_Ok by (by apply load_Ok); reflexivity].
  rewrite Hop. cbn [py_str]. unfold hasattr, call_method. rewrite G.
  by rewrite bool_decide_eq_true_2.
Qed.

End Delegation.

(** One decorated method serves [("add", 1, 2)] and [("sub", 1, 2)]. *)
Lemma delegates_share_one_implementation_witness :
  let p := ParseTreeProcessor_new ArithProcessor false in
  let add := PtNode_init [VStr "add"; VInt 1; VInt 2] in
  let sub := PtNode_init [VStr "sub"; VInt 1; VInt 2] in
  do_process p (VRef 0) [add; sub] = arith (VRef 0) [add; sub]
  ∧ do_process p (VRef 1) [add; sub] = arith (VRef 1) [add; sub].
Proof.
  intros p add sub.
  assert (∀ tag, ("process_" +:+ tag) ∈ ["process_add"; "process_sub"] →
          ∀ h l n, h !! l = Some n → _op n = VStr tag →
          do_process p (VRef l) h = arith (VRef l) h) as D.
  { intros tag Htag.
    refine (proj2 (delegates_share_one_implementation ArithProcessor false "arith"
                     {| impl := arith; delegate_of := Some ["process_add"; "process_sub"] |}
                     ["process_add"; "process_sub"] _ _ eq_refl _ tag Htag)).
    - compute_done.
    - right. left.
    - intros k' m' ds' Hin Hne Hd. apply elem_of_cons in Hin as [Hin|Hin].
      + by injection Hin as -> ->.
      + apply list_elem_of_singleton in Hin. by injection Hin as -> ->. }
  split.
  - apply (D "add" ltac:(compute_done) _ 0 add); reflexivity.
  - apply (D "sub" ltac:(compute_done) _ 1 sub); reflexivity.
Defined.


(** ** Raw trees and their nodes *)

Lemma is_primitive_spec v : is_primitive v = true ↔ is_tuple v = false ∧ is_node v = false.
Proof. unfold is_primitive. destruct v; cbn; intuition congruence. Qed.

Lemma wf_encode_leaf t : is_tuple (encode t) = false → ∃ v, t = RLeaf v.
Proof. destruct t; cbn; [eauto|done..]. Qed.

Lemma encode_tuple_kids t args :
  encode t = VTuple args → wf_raw t = true →
  ∃ op a b, kids t = Some (op, a, b) ∧ wf_raw a = true ∧ wf_raw b = true
          ∧ depth a < depth t ∧ depth b < depth t
          ∧ PtNode_init args = {| _op := op; _a := encode a; _b := encode b; _x := XExtras ∅ |}.
Proof.
  destruct t; cbn.
  - by intros -> W.
  - intros [= <-] W. eexists _, _, _. split; [done|]. cbn. repeat split; try done; lia.
  - intros [= <-] [W1 W2]%andb_prop. eexists _, _, _. split; [done|].
    repeat split; try done; lia.
Qed.

Lemma with_a_same n : with_a n (_a n) = n.
Proof. by destruct n. Qed.

Lemma with_b_same n : with_b n (_b n) = n.
Proof. by destruct n. Qed.

Lemma grows_refl l h : grows l h h.
Proof. by split. Qed.

(** Materialising an operand, seen from outside: the node [l] changes and
    at most one node is appended. *)
Lemma get_a_grows h l n :
  h !! l = Some n →
  ∃ v h', get_a l h = Ok v h' ∧ grows l h h'
        ∧ h' !! l = Some (with_a n v)
        ∧ (is_tuple (_a n) = false → v = _a n ∧ h' = h)
        ∧ (∀ args, _a n = VTuple args →
             v = VRef (length h) ∧ length h' = S (length h)
             ∧ h' !! length h = Some (PtNode_init args)).
Proof.
  intros E. pose proof (lookup_lt_Some _ _ _ E) as Hl.
  destruct (is_tuple (_a n)) eqn:T.
  - destruct (_a n) as [| | | | |args|] eqn:Ea; try done.
    eexists _, _. split; [by apply get_a_tuple|].
    split; [|split; [by apply lookup_linked|split; [done|]]].
    + split; [rewrite length_insert, length_app; lia|].
      intros k Hk Hkl. rewrite list_lookup_insert_ne by done. by apply lookup_app_l.
    + intros ? [= <-]. split; [done|].
      split; [rewrite length_insert, length_app; cbn; lia|by apply lookup_new].
  - eexists _, _. split; [by apply get_a_pure|].
    split; [apply grows_refl|]. rewrite with_a_same.
    split; [done|]. split; [done|]. intros args Ea. by rewrite Ea in T.
Qed.

Lemma get_b_grows h l n :
  h !! l = Some n →
  ∃ v h', get_b l h = Ok v h' ∧ grows l h h'
        ∧ h' !! l = Some (with_b n v)
        ∧ (is_tuple (_b n) = false → v = _b n ∧ h' = h)
        ∧ (∀ args, _b n = VTuple args →
             v = VRef (length h) ∧ length h' = S (length h)
             ∧ h' !! length h = Some (PtNode_init args)).
Proof.
  intros E. pose proof (lookup_lt_Some _ _ _ E) as Hl.
  destruct (is_tuple (_b n)) eqn:T.
  - destruct (_b n) as [| | | | |args|] eqn:Ea; try done.
    eexists _, _. split; [by apply get_b_tuple|].
    split; [|split; [by apply lookup_linked|split; [done|]]].
    + split; [rewrite length_insert, length_app; lia|].
      intros k Hk Hkl. rewrite list_lookup_insert_ne by done. by apply lookup_app_l.
    + intros ? [= <-]. split; [done|].
      split; [rewrite length_insert, length_app; cbn; lia|by apply lookup_new].
  - eexists _, _. split; [by apply get_b_pure|].
    split; [apply grows_refl|]. rewrite with_b_same.
    split; [done|]. split; [done|]. intros args Ea. by rewrite Ea in T.
Qed.

Ltac step H :=
  rewrite ?bind_assoc; erewrite (bind_Ok _ _ _ _ _ H); cbn beta iota; rewrite ?ret_bind.

Lemma grows_lookup l h h' k n :
  grows l h h' → h !! k = Some n → k ≠ l → h' !! k = Some n.
Proof.
  intros [_ G] E Hk. rewrite G; [done| |done]. by eapply lookup_lt_Some.
Qed.

Lemma grows_length l h h' : grows l h h' → length h ≤ length h'.
Proof. by intros [? _]. Qed.

Lemma fresh_at_grows l h h' v t :
  grows l h h' → fresh_at h v t → v ≠ VRef l → fresh_at h' v t.
Proof.
  unfold fresh_at. intros G F Hv. destruct (kids t) as [[[op a] b]|]; [|done].
  destruct F as (l' & n & -> & E & Hn). exists l', n. split; [done|]. split; [|done].
  eapply grows_lookup; [done..|congruence].
Qed.

(** Reading operand [a] of a node whose operand is stored in raw form. *)
Lemma get_a_fresh h l n a :
  h !! l = Some n → _a n = encode a → wf_raw a = true →
  ∃ v h', get_a l h = Ok v h' ∧ grows l h h' ∧ h' !! l = Some (with_a n v)
        ∧ fresh_at h' v a ∧ is_tuple v = false
        ∧ (∀ l', v = VRef l' → l' = length h ∧ length h' = S (length h))
        ∧ (is_node v = false → h' = h).
Proof.
  intros E Ea W. destruct (get_a_grows h l n E) as (v & h' & G & Gr & El & Hleaf & Hnode).
  exists v, h'. split; [done|]. split; [done|]. split; [done|].
  destruct (is_tuple (_a n)) eqn:T.
  - destruct (_a n) as [| | | | |args|] eqn:Ea'; try done.
    destruct (Hnode args eq_refl) as (-> & Hlen & Hnew).
    destruct (encode_tuple_kids a args (eq_sym Ea) W) as (op & a1 & a2 & K & _ & _ & _ & _ & I).
    split; [|split; [done|split; [|done]]].
    + unfold fresh_at. rewrite K. eexists _, _. split; [done|]. by rewrite Hnew, I.
    + by intros ? [= <-].
  - destruct (Hleaf eq_refl) as [-> ->].
    rewrite Ea in T. destruct (wf_encode_leaf a T) as [v ->]. cbn in *.
    apply is_primitive_spec in W as [W1 W2]. rewrite Ea.
    split; [done|]. split; [done|]. split; [|done].
    intros l' ->. done.
Qed.

Lemma get_b_fresh h l n b :
  h !! l = Some n → _b n = encode b → wf_raw b = true →
  ∃ v h', get_b l h = Ok v h' ∧ grows l h h' ∧ h' !! l = Some (with_b n v)
        ∧ fresh_at h' v b ∧ is_tuple v = false
        ∧ (∀ l', v = VRef l' → l' = length h ∧ length h' = S (length h))
        ∧ (is_node v = false → h' = h).
Proof.
  intros E Eb W. destruct (get_b_grows h l n E) as (v & h' & G & Gr & El & Hleaf & Hnode).
  exists v, h'. split; [done|]. split; [done|]. split; [done|].
  destruct (is_tuple (_b n)) eqn:T.
  - destruct (_b n) as [| | | | |args|] eqn:Eb'; try done.
    destruct (Hnode args eq_refl) as (-> & Hlen & Hnew).
    destruct (encode_tuple_kids b args (eq_sym Eb) W) as (op & b1 & b2 & K & _ & _ & _ & _ & I).
    split; [|split; [done|split; [|done]]].
    + unfold fresh_at. rewrite K. eexists _, _. split; [done|]. by rewrite Hnew, I.
    + by intros ? [= <-].
  - destruct (Hleaf eq_refl) as [-> ->].
    rewrite Eb in T. destruct (wf_encode_leaf b T) as [v ->]. cbn in *.
    apply is_primitive_spec in W as [W1 W2]. rewrite Eb.
    split; [done|]. split; [done|]. split; [|done].
    intros l' ->. done.
Qed.

Lemma grows_trans l h h1 h2 : grows l h h1 → grows l h1 h2 → grows l h h2.
Proof.
  intros [L1 G1] [L2 G2]. split; [lia|].
  intros k Hk Hkl. rewrite G2 by (done || lia). by apply G1.
Qed.

Lemma grows_beyond l l' h h1 h2 :
  grows l h h1 → grows l' h1 h2 → length h ≤ l' → grows l h h2.
Proof.
  intros [L1 G1] [L2 G2] Hl'. split; [lia|].
  intros k Hk Hkl. rewrite G2 by lia. by apply G1.
Qed.

Lemma fresh_at_is_None h v t : fresh_at h v t → is_None v = is_None (encode t).
Proof.
  unfold fresh_at. destruct t; cbn; [by intros ->|..]; by intros (l & n & -> & _).
Qed.

(** ** Round trip through [to_tuple] *)

Lemma canon_kids t op a b :
  kids t = Some (op, a, b) →
  canon t = VTuple (op :: canon a :: if is_None (encode b) then [] else [canon b]).
Proof.
  destruct t; cbn; [done|..]; intros [= <- <- <-]; [done|].
  by destruct (is_None (encode t2)).
Qed.

Lemma kids_wf t op a b :
  kids t = Some (op, a, b) → wf_raw t = true →
  wf_raw a = true ∧ wf_raw b = true ∧ depth t = S (depth a `max` depth b).
Proof.
  destruct t; cbn; [done|..]; intros [= <- <- <-] W.
  - split; [done|]. split; [done|]. cbn. lia.
  - by apply andb_prop in W as [? ?].
Qed.

(** [to_tuple] on an operand that was just read: the result is the tuple of
    the tree, second operands [None] left out; only the node itself and new
    locations change. *)
Lemma to_tuple_fresh (fuel : nat) : ∀ t v h,
  wf_raw t = true → fresh_at h v t → depth t ≤ fuel →
  ∃ h', (match v with VRef l' => to_tuple fuel l' | _ => mret v end) h = Ok (canon t) h'
      ∧ (∀ l, v = VRef l → grows l h h')
      ∧ (is_node v = false → h' = h).
Proof.
  induction fuel as [|fuel IH]; intros t v h W F D.
  - destruct t; cbn in D; try lia. cbn in F. subst v. cbn in W.
    apply is_primitive_spec in W as [W1 W2]. exists h.
    split; [by destruct v0|]. split; [by intros l ->|done].
  - unfold fresh_at in F. destruct (kids t) as [[[op a] b]|] eqn:K.
    2:{ destruct t; cbn in K; try done. cbn in F. subst v. cbn in W.
        apply is_primitive_spec in W as [W1 W2]. exists h.
        split; [by destruct v0|]. split; [by intros l ->|done]. }
    destruct F as (l & n & -> & E & Eop & Ea & Eb).
    destruct (kids_wf _ _ _ _ K W) as (Wa & Wb & Dt).
    pose proof (lookup_lt_Some _ _ _ E) as Hl.
    destruct (get_b_fresh h l _ b E Eb Wb)
      as (vb & h1 & Gb & Gr1 & E1 & Fb & Tb & Nb & Lb).
    destruct (get_a_fresh h1 l _ a E1 Ea Wa)
      as (va & h2 & Ga & Gr2 & E2 & Fa & Ta & Na & La).
    pose proof (grows_length _ _ _ Gr1) as L1.
    pose proof (grows_length _ _ _ Gr2) as L2.
    assert (fresh_at h2 vb b) as Fb2.
    { eapply fresh_at_grows; [done..|]. intros ->. destruct (Nb l eq_refl). lia. }
    destruct (IH a va h2 Wa Fa ltac:(lia)) as (h3 & Ta3 & Gr3 & La3).
    assert (fresh_at h3 vb b ∧ length h2 ≤ length h3 ∧ (∀ la, va = VRef la → grows la h2 h3)) as (Fb3 & L3 & Gr3').
    { destruct (is_node va) eqn:Nva.
      - destruct va; try done. specialize (Gr3 _ eq_refl).
        split; [|split; [by eapply grows_length|by intros ? [= <-]]].
        eapply fresh_at_grows; [done..|]. intros ->.
        destruct (Na _ eq_refl). destruct (Nb _ eq_refl). lia.
      - rewrite (La3 eq_refl). split; [done|]. split; [done|]. by intros la ->. }
    destruct (IH b vb h3 Wb Fb3 ltac:(lia)) as (h4 & Tb4 & Gr4 & Lb4).
    assert (grows l h h3) as G03.
    { assert (grows l h h2) as G02 by (by eapply grows_trans).
      destruct (is_node va) eqn:Nva.
      - destruct va; try done. eapply grows_beyond; [done|by apply Gr3|].
        destruct (Na _ eq_refl). lia.
      - by rewrite (La3 eq_refl). }
    rewrite (canon_kids _ _ _ _ K).
    cbn [to_tuple]. unfold get_op.
    erewrite bind_Ok; [|erewrite bind_Ok by (by apply load_Ok); reflexivity].
    rewrite Eop.
    assert (operands l h = Ok (va :: if is_None (encode b) then [] else [vb]) h2) as Ops.
    { unfold operands. step Gb. rewrite (fresh_at_is_None _ _ _ Fb).
      destruct (is_None (encode b)); [by step Ga|]. step Ga.
      by erewrite (bind_Ok _ _ _ _ _ (get_b_pure _ _ _ E2 Tb)). }
    step Ops.
    destruct (is_None (encode b)) eqn:Nn; cbn [mapM]; cbv beta; step Ta3.
    + exists h3. split; [done|]. split; [by intros ? [= <-]|done].
    + step Tb4. exists h4.
      split; [done|]. split; [|done]. intros ? [= <-].
      destruct (is_node vb) eqn:Nvb.
      * destruct vb; try done. eapply grows_beyond; [done|by apply Gr4|].
        destruct (Nb _ eq_refl). lia.
      * by rewrite (Lb4 eq_refl).
Qed.

Lemma canon_encode t : canon t = encode t ↔ b_present t = true.
Proof.
  induction t as [v|op a IHa|op a IHa b IHb]; cbn.
  - done.
  - rewrite <- IHa. split; [by intros [= ->]|by intros ->].
  - destruct (is_None (encode b)) eqn:Nb; cbn.
    + split; [intros [=]|done].
    + rewrite andb_true_iff, <- IHa, <- IHb. split; [by intros [= -> ->]|by intros [-> ->]].
Qed.

Lemma fresh_at_alloc (h : heap) t args :
  wf_raw t = true → encode t = VTuple args →
  fresh_at (h ++ [PtNode_init args]) (VRef (length h)) t.
Proof.
  intros W E. destruct (encode_tuple_kids t args E W) as (op & a & b & K & _ & _ & _ & _ & I).
  unfold fresh_at. rewrite K. eexists _, _. split; [done|].
  rewrite lookup_app_r by lia. by rewrite Nat.sub_diag, I.
Qed.

(** C6, as amended. A node is built from the tuple of a raw tree (an
    operator with one or two operands, nested, the leaves primitives), and
    [to_tuple] is called on it with no other operation in between.  The call
    returns the tuple in which every second operand [None] is left out, and
    leaves the nodes that existed before untouched; the result is the
    original tuple exactly when no binary node of the tree has [None] as its
    second operand. *)
Theorem to_tuple_round_trip (t : raw) (args : list value) (fuel : nat) (h : heap) :
  wf_raw t = true → encode t = VTuple args → depth t ≤ fuel →
  (∃ h', (l ← alloc (PtNode_init args); to_tuple fuel l) h = Ok (canon t) h'
       ∧ ∀ k, k < length h → h' !! k = h !! k)
  ∧ (canon t = VTuple args ↔ b_present t = true).
Proof.
  intros W E D. split; [|by rewrite <- E; apply canon_encode].
  destruct (to_tuple_fresh fuel t _ _ W (fresh_at_alloc h t args W E) D) as (h' & T & G & _).
  exists h'. split.
  - by step (alloc_Ok h (PtNode_init args)).
  - intros k Hk. destruct (G _ eq_refl) as [_ G']. rewrite G'.
    + by apply lookup_app_l.
    + rewrite length_app. lia.
    + lia.
Qed.

Lemma to_tuple_round_trip_witness :
  ∃ h', (l ← alloc (PtNode_init [VStr "x"; VTuple [VStr "y"; VInt 1]; VTuple [VStr "z"; VInt 2]]);
         to_tuple 2 l) [] = Ok xyz h'.
Proof.
  destruct (to_tuple_round_trip
              (RBin (VStr "x") (RUn (VStr "y") (RLeaf (VInt 1))) (RUn (VStr "z") (RLeaf (VInt 2))))
              _ 2 [] eq_refl eq_refl ltac:(cbn; lia)) as [(h' & T & _) _].
  by exists h'.
Defined.

(** C6, as stated, fails on [("op", 1, None)]: the second operand [None] is
    taken for an absent operand, and [to_tuple] never returns the tuple the
    node was built from. *)
Lemma to_tuple_drops_None_operand :
  encode (RBin (VStr "op") (RLeaf (VInt 1)) (RLeaf VNone)) = VTuple [VStr "op"; VInt 1; VNone]
  ∧ (l ← alloc (PtNode_init [VStr "op"; VInt 1; VNone]); to_tuple 1 l) []
    = Ok (VTuple [VStr "op"; VInt 1]) [PtNode_init [VStr "op"; VInt 1; VNone]]
  ∧ ¬ ∃ fuel h', (l ← alloc (PtNode_init [VStr "op"; VInt 1; VNone]); to_tuple fuel l) []
                 = Ok (VTuple [VStr "op"; VInt 1; VNone]) h'.
Proof.
  split; [done|]. split; [done|].
  intros (fuel & h' & E). destruct fuel; discriminate E.
Qed.

(** ** Stores that grow *)

Lemma extends_refl h : extends h h.
Proof.
  split; [done|]. split; [by eauto|].
  intros k n Hk E. apply lookup_lt_Some in E. lia.
Qed.

Lemma extends_trans h h1 h2 : extends h h1 → extends h1 h2 → extends h h2.
Proof.
  intros (L1 & K1 & B1) (L2 & K2 & B2). split; [lia|]. split.
  - intros k n E. destruct (K1 k n E) as (n1 & E1 & X1 & O1).
    destruct (K2 k n1 E1) as (n2 & E2 & X2 & O2). exists n2. by rewrite X2, O2.
  - intros k n Hk E. destruct (decide (k < length h1)) as [Hlt|Hge].
    + destruct (lookup_lt_is_Some_2 h1 k Hlt) as [n1 E1].
      destruct (K2 k n1 E1) as (n2 & E2 & X2 & _).
      assert (n2 = n) as -> by congruence. rewrite X2. by apply (B1 k).
    + apply (B2 k); [lia|done].
Qed.

Lemma get_a_extends h l n a v h' :
  h !! l = Some n → _a n = encode a → wf_raw a = true →
  get_a l h = Ok v h' → extends h h'.
Proof.
  intros E Ea W G. pose proof (lookup_lt_Some _ _ _ E) as Hl.
  destruct (is_tuple (_a n)) eqn:T.
  - destruct (_a n) as [| | | | |args|] eqn:Ea'; try done.
    rewrite (get_a_tuple _ _ _ _ E Ea') in G. injection G as <- <-.
    destruct (encode_tuple_kids a args (eq_sym Ea) W) as (op & a1 & a2 & _ & _ & _ & _ & _ & I).
    split; [rewrite length_insert, length_app; lia|]. split.
    + intros k nk Ek. destruct (decide (k = l)) as [->|Hk].
      * rewrite lookup_linked by done. eexists. split; [done|].
        assert (nk = n) as -> by congruence. done.
      * rewrite list_lookup_insert_ne by done. rewrite lookup_app_l by (by eapply lookup_lt_Some).
        eauto.
    + intros k nk Hk Ek. rewrite list_lookup_insert_ne in Ek by lia.
      rewrite lookup_app_r in Ek by done.
      destruct (k - length h) as [|?]; cbn in Ek; [|done].
      injection Ek as <-. by rewrite I.
  - rewrite (get_a_pure _ _ _ E T) in G. injection G as <- <-. apply extends_refl.
Qed.

Lemma get_b_extends h l n b v h' :
  h !! l = Some n → _b n = encode b → wf_raw b = true →
  get_b l h = Ok v h' → extends h h'.
Proof.
  intros E Eb W G. pose proof (lookup_lt_Some _ _ _ E) as Hl.
  destruct (is_tuple (_b n)) eqn:T.
  - destruct (_b n) as [| | | | |args|] eqn:Eb'; try done.
    rewrite (get_b_tuple _ _ _ _ E Eb') in G. injection G as <- <-.
    destruct (encode_tuple_kids b args (eq_sym Eb) W) as (op & b1 & b2 & _ & _ & _ & _ & _ & I).
    split; [rewrite length_insert, length_app; lia|]. split.
    + intros k nk Ek. destruct (decide (k = l)) as [->|Hk].
      * rewrite lookup_linked by done. eexists. split; [done|].
        assert (nk = n) as -> by congruence. done.
      * rewrite list_lookup_insert_ne by done. rewrite lookup_app_l by (by eapply lookup_lt_Some).
        eauto.
    + intros k nk Hk Ek. rewrite list_lookup_insert_ne in Ek by lia.
      rewrite lookup_app_r in Ek by done.
      destruct (k - length h) as [|?]; cbn in Ek; [|done].
      injection Ek as <-. by rewrite I.
  - rewrite (get_b_pure _ _ _ E T) in G. injection G as <- <-. apply extends_refl.
Qed.

(** ** Converted trees *)

Lemma mat_stable lo hi h h' v t :
  mat lo hi h v t → (∀ k, lo ≤ k < hi → h' !! k = h !! k) → mat lo hi h' v t.
Proof.
  intros Hm Hs. induction Hm as [v P|l n t op a b K Hl E Eop _ IHa _ IHb].
  - by apply mat_leaf.
  - eapply mat_node; [done|done| |done|done|done]. by rewrite Hs.
Qed.

Lemma mat_weaken lo hi lo' hi' h v t :
  mat lo hi h v t → lo' ≤ lo → hi ≤ hi' → mat lo' hi' h v t.
Proof.
  intros Hm Hlo Hhi. induction Hm as [v P|l n t op a b K Hl E Eop _ IHa _ IHb].
  - by apply mat_leaf.
  - eapply mat_node; [done|lia|done|done|done|done].
Qed.

Lemma mat_not_tuple lo hi h v t : mat lo hi h v t → is_tuple v = false.
Proof.
  destruct 1 as [v P|]; [|done]. by apply is_primitive_spec in P as [? _].
Qed.

Lemma rooted_mat lo hi lo' h v t :
  rooted lo hi h v t → wf_raw t = true → lo' ≤ lo →
  (∀ l, v = VRef l → lo' ≤ l < hi) → mat lo' hi h v t.
Proof.
  unfold rooted. intros R W Hlo Hv. destruct (kids t) as [[[op a] b]|] eqn:K.
  - destruct R as (l & n & -> & E & Eop & Ma & Mb).
    eapply mat_node; [done|by apply Hv|done|done|..]; by eapply mat_weaken.
  - destruct t; try done. cbn in R. subst v. by apply mat_leaf.
Qed.

Lemma all_ok_kids_eq (ok : value → bool) t op a b :
  kids t = Some (op, a, b) → all_ok ok t = all_ok ok a && all_ok ok b && ok op.
Proof.
  destruct t; cbn; [done|..]; intros [= <- <- <-]; [|done]. by rewrite andb_true_r.
Qed.

Lemma kids_depth t op a b :
  kids t = Some (op, a, b) → depth t = S (depth a `max` depth b).
Proof. destruct t; cbn; [done|..]; intros [= <- <- <-]; cbn; lia. Qed.

Lemma all_ok_kids (ok : value → bool) t op a b :
  kids t = Some (op, a, b) → all_ok ok t = true →
  all_ok ok a = true ∧ all_ok ok b = true ∧ ok op = true.
Proof.
  destruct t; cbn; [done|..]; intros [= <- <- <-] H.
  - apply andb_prop in H as [? ?]. done.
  - apply andb_prop in H as [[? ?]%andb_prop ?]. done.
Qed.

(** ** One traversal by a processor that passes the operators it meets *)

Section Traversal.

Variable p : Processor.
Variable ok : value → bool.

Hypothesis prim_id :
  ∀ v h, is_primitive v = true → process_primitive p v h = Ok v h.
Hypothesis pass :
  ∀ l h n, h !! l = Some n → ok (_op n) = true → do_process p (VRef l) h = Ok (VRef l) h.

Lemma set_a_same h l n : h !! l = Some n → set_a l (_a n) h = Ok tt h.
Proof.
  intros E. rewrite (set_a_Ok _ _ _ _ E), with_a_same. by rewrite list_insert_id.
Qed.

Lemma set_b_same h l n : h !! l = Some n → set_b l (_b n) h = Ok tt h.
Proof.
  intros E. rewrite (set_b_Ok _ _ _ _ E), with_b_same. by rewrite list_insert_id.
Qed.

(** A traversal of an operand that was just read converts the whole tree
    below it, in new locations, and returns the operand itself. *)
Lemma process_fresh_ok (fuel : nat) : ∀ t v h,
  wf_raw t = true → all_ok ok t = true → fresh_at h v t → depth t < fuel →
  ∃ h', process fuel p v h = Ok v h'
      ∧ extends h h'
      ∧ (is_node v = false → h' = h)
      ∧ (∀ l, v = VRef l → grows l h h')
      ∧ rooted (length h) (length h') h' v t.
Proof.
  induction fuel as [|fuel IH]; intros t v h W A F D; [lia|].
  unfold fresh_at in F. destruct (kids t) as [[[op a] b]|] eqn:K.
  2:{ destruct t; cbn in K; try done. cbn in F. subst v. cbn in W.
      exists h. split.
      - cbn [process]. apply is_primitive_spec in W as [W1 W2].
        destruct v0; try done; by apply prim_id.
      - split; [apply extends_refl|]. split; [done|]. split; [|done].
        intros l ->. by apply is_primitive_spec in W as [_ ?]. }
  destruct F as (l & n & -> & E & Eop & Ea & Eb).
  destruct (kids_wf _ _ _ _ K W) as (Wa & Wb & Dt).
  destruct (all_ok_kids _ _ _ _ _ K A) as (Aa & Ab & Aop).
  pose proof (lookup_lt_Some _ _ _ E) as Hl.
  (* operand a *)
  destruct (get_a_fresh h l _ a E Ea Wa)
    as (va & h1 & Ga & Gr1 & E1 & Fa & Ta & Na & La).
  pose proof (get_a_extends _ _ _ _ _ _ E Ea Wa Ga) as X1.
  pose proof (grows_length _ _ _ Gr1) as L1.
  destruct (IH a va h1 Wa Aa Fa ltac:(lia)) as (h2 & Pa & X2 & La2 & Gr2 & Ra).
  assert (length h1 ≤ length h2) as L2 by apply X2.
  assert (grows l h h2 ∧ h2 !! l = Some (with_a n va)) as [G02 E2].
  { destruct (is_node va) eqn:Nva.
    - destruct va as [| | | | | |la]; try done. destruct (Na _ eq_refl) as [-> Hlen].
      split; [by eapply grows_beyond; [|apply Gr2|]|].
      eapply grows_lookup; [by apply Gr2|done|lia].
    - by rewrite (La2 eq_refl). }
  assert (mat (length h) (length h2) h2 va a) as Ma.
  { eapply rooted_mat; [done|done|lia|].
    intros la ->. destruct (Na _ eq_refl) as [-> Hlen]. lia. }
  (* operand b *)
  destruct (get_b_fresh h2 l _ b E2 Eb Wb)
    as (vb & h3 & Gb & Gr3 & E3 & Fb & Tb & Nb & Lb).
  pose proof (get_b_extends _ _ _ _ _ _ E2 Eb Wb Gb) as X3.
  pose proof (grows_length _ _ _ Gr3) as L3.
  destruct (IH b vb h3 Wb Ab Fb ltac:(lia)) as (h4 & Pb & X4 & Lb4 & Gr4 & Rb).
  assert (length h3 ≤ length h4) as L4 by apply X4.
  assert (grows l h2 h4 ∧ h4 !! l = Some (with_b (with_a n va) vb)) as [G24 E4].
  { destruct (is_node vb) eqn:Nvb.
    - destruct vb as [| | | | | |lb]; try done. destruct (Nb _ eq_refl) as [-> Hlen].
      split; [by eapply grows_beyond; [|apply Gr4|]|].
      eapply grows_lookup; [by apply Gr4|done|lia].
    - by rewrite (Lb4 eq_refl). }
  assert (mat (length h) (length h4) h4 vb b) as Mb.
  { eapply rooted_mat; [done|done|lia|].
    intros lb ->. destruct (Nb _ eq_refl) as [-> Hlen]. lia. }
  exists h4. split; [|split; [|split; [done|split]]].
  - cbn [process]. rewrite ret_bind. cbn beta iota.
    step Ga. step Pa.
    step (set_a_same _ _ _ E2).
    step Gb.
    assert (((if is_None vb then mret ()
              else get_b l ≫= λ b0, process fuel p b0 ≫= λ b1, set_b l b1) : M ()) h3
            = Ok () h4) as Hb.
    { destruct (is_None vb) eqn:Nn.
      - destruct vb; try done. by rewrite (Lb4 eq_refl).
      - step (get_b_pure _ _ _ E3 Tb). step Pb.
        by apply (set_b_same h4 l (with_b (with_a n va) vb)). }
    step Hb. by apply (pass l h4 _ E4); rewrite <- Eop in Aop.
  - exact (extends_trans _ _ _ (extends_trans _ _ _ (extends_trans _ _ _ X1 X2) X3) X4).
  - intros ? [= <-]. by eapply grows_trans.
  - unfold rooted. rewrite K. exists l, (with_b (with_a n va) vb).
    split; [done|]. split; [done|]. split; [done|]. split; [|done].
    apply (mat_weaken (length h) (length h2)); [|lia|lia].
    eapply mat_stable; [exact Ma|]. intros k Hk.
    destruct G24 as [_ G]. apply G; lia.
Qed.

(** A traversal of a converted tree changes nothing. *)
Lemma process_mat_id (fuel : nat) : ∀ lo hi t v h,
  mat lo hi h v t → all_ok ok t = true → depth t < fuel →
  process fuel p v h = Ok v h.
Proof.
  induction fuel as [|fuel IH]; intros lo hi t v h Hm A D; [lia|].
  destruct Hm as [v P|l n t op a b K Hl E Eop Ma Mb].
  - cbn [process]. apply is_primitive_spec in P as [P1 P2].
    destruct v; try done; by apply prim_id.
  - destruct (all_ok_kids _ _ _ _ _ K A) as (Aa & Ab & Aop).
    pose proof (kids_depth _ _ _ _ K) as Dt.
    cbn [process]. rewrite ret_bind. cbn beta iota.
    step (get_a_pure _ _ _ E (mat_not_tuple _ _ _ _ _ Ma)).
    step (IH _ _ _ _ _ Ma Aa ltac:(lia)).
    step (set_a_same _ _ _ E).
    step (get_b_pure _ _ _ E (mat_not_tuple _ _ _ _ _ Mb)).
    assert (((if is_None (_b n) then mret ()
              else get_b l ≫= λ b0, process fuel p b0 ≫= λ b1, set_b l b1) : M ()) h
            = Ok () h) as Hb.
    { destruct (is_None (_b n)) eqn:Nn; [done|].
      step (get_b_pure _ _ _ E (mat_not_tuple _ _ _ _ _ Mb)).
      step (IH _ _ _ _ _ Mb Ab ltac:(lia)).
      by apply set_b_same. }
    step Hb. apply (pass l h n E). by rewrite Eop.
Qed.

Hypothesis reject :
  ∀ l h n, h !! l = Some n → ok (_op n) = false →
    do_process p (VRef l) h = Raise (PtNodeNotRecognised (VRef l)) h.

(** A traversal of an operand that was just read, when some operator of the
    tree is refused: the exception carries a node whose operator is refused,
    and the nodes that existed before keep operator and annotations. *)
Lemma process_fresh_reject (fuel : nat) : ∀ t v h,
  wf_raw t = true → all_ok ok t = false → fresh_at h v t → depth t < fuel →
  ∃ l h' n, process fuel p v h = Raise (PtNodeNotRecognised (VRef l)) h'
          ∧ h' !! l = Some n ∧ ok (_op n) = false
          ∧ extends h h'.
Proof.
  induction fuel as [|fuel IH]; intros t v h W A F D; [lia|].
  unfold fresh_at in F. destruct (kids t) as [[[op a] b]|] eqn:K.
  2:{ destruct t; cbn in K; done. }
  destruct F as (l & n & -> & E & Eop & Ea & Eb).
  destruct (kids_wf _ _ _ _ K W) as (Wa & Wb & Dt).
  rewrite (all_ok_kids_eq _ _ _ _ _ K) in A.
  pose proof (lookup_lt_Some _ _ _ E) as Hl.
  destruct (get_a_fresh h l _ a E Ea Wa)
    as (va & h1 & Ga & Gr1 & E1 & Fa & Ta & Na & La).
  pose proof (get_a_extends _ _ _ _ _ _ E Ea Wa Ga) as X1.
  pose proof (grows_length _ _ _ Gr1) as L1.
  destruct (all_ok ok a) eqn:Aa.
  2:{ destruct (IH a va h1 Wa Aa Fa ltac:(lia)) as (l' & h' & n' & Pa & E' & O' & X').
      exists l', h', n'. split; [|split; [done|split; [done|by eapply extends_trans]]].
      cbn [process]. rewrite ret_bind. cbn beta iota. step Ga.
      by rewrite ?bind_assoc, (bind_Raise _ _ _ _ _ Pa). }
  destruct (process_fresh_ok fuel a va h1 Wa Aa Fa ltac:(lia)) as (h2 & Pa & X2 & La2 & Gr2 & Ra).
  assert (length h1 ≤ length h2) as L2 by apply X2.
  assert (h2 !! l = Some (with_a n va)) as E2.
  { destruct (is_node va) eqn:Nva.
    - destruct va as [| | | | | |la]; try done. destruct (Na _ eq_refl) as [-> Hlen].
      eapply grows_lookup; [by apply Gr2|done|lia].
    - by rewrite (La2 eq_refl). }
  destruct (get_b_fresh h2 l _ b E2 Eb Wb)
    as (vb & h3 & Gb & Gr3 & E3 & Fb & Tb & Nb & Lb).
  pose proof (get_b_extends _ _ _ _ _ _ E2 Eb Wb Gb) as X3.
  pose proof (grows_length _ _ _ Gr3) as L3.
  pose proof (extends_trans _ _ _ (extends_trans _ _ _ X1 X2) X3) as X03.
  assert (is_None vb = true → all_ok ok b = true) as Hnone.
  { intros Nn. rewrite (fresh_at_is_None _ _ _ Fb) in Nn. by destruct b. }
  destruct (all_ok ok b) eqn:Ab.
  2:{ destruct (IH b vb h3 Wb Ab Fb ltac:(lia)) as (l' & h' & n' & Pb & E' & O' & X').
      exists l', h', n'. split; [|split; [done|split; [done|by eapply extends_trans]]].
      cbn [process]. rewrite ret_bind. cbn beta iota.
      step Ga. step Pa. step (set_a_same _ _ _ E2). step Gb.
      destruct (is_None vb) eqn:Nn; [by specialize (Hnone eq_refl)|].
      step (get_b_pure _ _ _ E3 Tb).
      by rewrite ?bind_assoc, (bind_Raise _ _ _ _ _ Pb). }
  destruct (process_fresh_ok fuel b vb h3 Wb Ab Fb ltac:(lia)) as (h4 & Pb & X4 & Lb4 & Gr4 & Rb).
  assert (h4 !! l = Some (with_b (with_a n va) vb)) as E4.
  { destruct (is_node vb) eqn:Nvb.
    - destruct vb as [| | | | | |lb]; try done. destruct (Nb _ eq_refl) as [-> Hlen].
      eapply grows_lookup; [by apply Gr4|done|lia].
    - by rewrite (Lb4 eq_refl). }
  cbn in A.
  exists l, h4, (with_b (with_a n va) vb).
  split; [|split; [done|split; [by rewrite <- Eop in A|by eapply extends_trans]]].
  cbn [process]. rewrite ret_bind. cbn beta iota.
  step Ga. step Pa. step (set_a_same _ _ _ E2). step Gb.
  assert (((if is_None vb then mret ()
            else get_b l ≫= λ b0, process fuel p b0 ≫= λ b1, set_b l b1) : M ()) h3
          = Ok () h4) as Hb.
  { destruct (is_None vb) eqn:Nn.
    - destruct vb; try done. by rewrite (Lb4 eq_refl).
    - step (get_b_pure _ _ _ E3 Tb). step Pb.
      by apply (set_b_same h4 l (with_b (with_a n va) vb)). }
  step Hb. apply (reject l h4 _ E4). by rewrite <- Eop in A.
Qed.

End Traversal.

(** ** Dispatch *)

Lemma getattr_cases p name :
  getattr p name = match user_handler p name with
                   | Some f => Some f
                   | None => base_method (_strict p) name
                   end.
Proof.
  unfold getattr, user_handler. destruct (inst_dict p !! name); [done|].
  by destruct (lookup_method name (cls_dict p)).
Qed.

Lemma get_op_Ok h l n : h !! l = Some n → get_op l h = Ok (_op n) h.
Proof. intros E. unfold get_op. by step (load_Ok _ _ _ E). Qed.

Lemma prefix_inj (s1 s2 : string) : "process_" +:+ s1 = "process_" +:+ s2 → s1 = s2.
Proof. intros H. cbn in H. by injection H. Qed.

(** What [do_process] does on a node, for a processor that does not override
    [process_unrecognised]: the handler named after the operator runs if the
    processor has one; otherwise the node is returned as it is when the
    operator is named ["primitive"] or the processor is not strict, and
    [PtNodeNotRecognised] is raised with the node when it is strict. *)
Lemma do_process_cases p l h n :
  user_handler p "process_unrecognised" = None →
  h !! l = Some n →
  do_process p (VRef l) h =
    match handler_for p (_op n) with
    | Some f => f (VRef l) h
    | None =>
        if bool_decide (py_str (_op n) = Some "primitive") then Ok (VRef l) h
        else if _strict p then Raise (PtNodeNotRecognised (VRef l)) h
        else Ok (VRef l) h
    end.
Proof.
  intros U E. unfold do_process. step (get_op_Ok _ _ _ E).
  assert (process_unrecognised p (VRef l) h
          = if _strict p then Raise (PtNodeNotRecognised (VRef l)) h else Ok (VRef l) h) as PU.
  { unfold process_unrecognised, call_method. rewrite getattr_cases, U. cbn.
    unfold base_process_unrecognised. by destruct (_strict p). }
  unfold handler_for. destruct (py_str (_op n)) as [s|] eqn:S; cbn.
  2:{ by rewrite bool_decide_eq_false_2. }
  unfold hasattr, call_method. rewrite getattr_cases.
  destruct (user_handler p ("process_" +:+ s)) as [f|] eqn:H.
  { by rewrite bool_decide_eq_true_2. }
  unfold base_method.
  destruct (decide (s = "primitive")) as [->|Hp].
  { rewrite decide_True by done. rewrite bool_decide_eq_true_2 by eauto.
    by rewrite bool_decide_eq_true_2. }
  rewrite decide_False by (intros Hs; by apply prefix_inj in Hs).
  rewrite (bool_decide_eq_false_2 (Some s = Some "primitive")) by congruence.
  destruct (decide (s = "unrecognised")) as [->|Hu].
  { rewrite decide_True by done. rewrite bool_decide_eq_true_2 by eauto.
    unfold base_process_unrecognised. by destruct (_strict p). }
  rewrite decide_False by (intros Hs; by apply prefix_inj in Hs).
  rewrite bool_decide_eq_false_2 by (by intros [? ?]). done.
Qed.

(** ** When a traversal raises *)

Lemma bind_Raise_inv {A B} (m : M A) (f : A → M B) h e h' :
  (m ≫= f) h = Raise e h' →
  m h = Raise e h' ∨ ∃ a h1, m h = Ok a h1 ∧ f a h1 = Raise e h'.
Proof.
  unfold mbind, M_bind. destruct (m h) as [a h1|e1 h1| |]; intros H; try done.
  - right. by exists a, h1.
  - left. by injection H as -> ->.
Qed.

Lemma never_raises_bind {A B} (m : M A) (f : A → M B) :
  never_raises m → (∀ a, never_raises (f a)) → never_raises (m ≫= f).
Proof.
  intros Hm Hf h e h' [H|(a & h1 & _ & H)]%bind_Raise_inv; [by apply Hm in H|by apply Hf in H].
Qed.

Lemma never_raises_ret {A} (a : A) : never_raises (mret a : M A).
Proof. by intros h e h'. Qed.

Lemma never_raises_load l : never_raises (load l).
Proof. intros h e h'. unfold load. by destruct (h !! l). Qed.

Lemma never_raises_store l n : never_raises (store l n).
Proof. intros h e h'. unfold store. by destruct (h !! l). Qed.

Lemma never_raises_alloc n : never_raises (alloc n).
Proof. by intros h e h'. Qed.

Lemma never_raises_set_a l v : never_raises (set_a l v).
Proof.
  apply never_raises_bind; [apply never_raises_load|intros; apply never_raises_store].
Qed.

Lemma never_raises_set_b l v : never_raises (set_b l v).
Proof.
  apply never_raises_bind; [apply never_raises_load|intros; apply never_raises_store].
Qed.

Lemma never_raises_get_a l : never_raises (get_a l).
Proof.
  apply never_raises_bind; [apply never_raises_load|]. intros n.
  destruct (_a n); try apply never_raises_ret.
  apply never_raises_bind; [apply never_raises_alloc|]. intros l'.
  apply never_raises_bind; [apply never_raises_set_a|]. intros. apply never_raises_ret.
Qed.

Lemma never_raises_get_b l : never_raises (get_b l).
Proof.
  apply never_raises_bind; [apply never_raises_load|]. intros n.
  destruct (_b n); try apply never_raises_ret.
  apply never_raises_bind; [apply never_raises_alloc|]. intros l'.
  apply never_raises_bind; [apply never_raises_set_b|]. intros. apply never_raises_ret.
Qed.

Section Quiet.

Variable p : Processor.

(** No handler of the processor's own raises. *)
Hypothesis quiet : ∀ name f, user_handler p name = Some f → ∀ v, never_raises (f v).

Lemma call_method_raise name v h e h' :
  is_Some (getattr p name) →
  call_method p name v h = Raise e h' →
  _strict p = true ∧ name = "process_unrecognised" ∧ user_handler p name = None
  ∧ e = PtNodeNotRecognised v ∧ h' = h.
Proof.
  unfold call_method. rewrite getattr_cases.
  destruct (user_handler p name) as [f|] eqn:U.
  { intros _ H. by apply (quiet _ _ U) in H. }
  unfold base_method. destruct (decide (name = "process_primitive")); [done|].
  destruct (decide (name = "process_unrecognised")) as [->|]; [|by intros [? ?]].
  intros _. unfold base_process_unrecognised. destruct (_strict p); [|done].
  by intros [= <- <-].
Qed.

Lemma process_primitive_quiet v : never_raises (process_primitive p v).
Proof.
  intros h e h' H. unfold process_primitive in H.
  apply call_method_raise in H as (_ & ? & _); [done|].
  rewrite getattr_cases. destruct (user_handler p "process_primitive"); [done|].
  by eexists.
Qed.

Lemma process_unrecognised_raise v h e h' :
  process_unrecognised p v h = Raise e h' →
  _strict p = true ∧ user_handler p "process_unrecognised" = None
  ∧ e = PtNodeNotRecognised v ∧ h' = h.
Proof.
  intros H. unfold process_unrecognised in H.
  apply call_method_raise in H as (? & _ & ? & ? & ?); [done|].
  rewrite getattr_cases. destruct (user_handler p "process_unrecognised"); [done|].
  by eexists.
Qed.

Lemma dispatch_ok_false op :
  handler_for p op = None → _strict p = true → py_str op ≠ Some "primitive" →
  dispatch_ok p op = false.
Proof.
  intros H S P. unfold dispatch_ok. rewrite H, S.
  rewrite bool_decide_eq_false_2 by apply is_Some_None.
  by rewrite bool_decide_eq_false_2.
Qed.

Lemma do_process_raise v h e h' :
  do_process p v h = Raise e h' →
  (∃ l n, v = VRef l ∧ e = PtNodeNotRecognised (VRef l) ∧ h' = h
        ∧ h !! l = Some n ∧ dispatch_ok p (_op n) = false)
  ∨ (is_node v = false ∧ e = AttributeError ∧ h' = h).
Proof.
  destruct v as [| | | | | |l]; try (intros [= <- <-]; by right).
  intros H. left. unfold do_process, get_op in H.
  rewrite bind_assoc in H. apply bind_Raise_inv in H as [H|(n & h1 & L & H)].
  { by apply never_raises_load in H. }
  unfold load in L. destruct (h !! l) as [n'|] eqn:E; [|done]. injection L as -> ->.
  rewrite ret_bind in H.
  assert (∀ s, py_str (_op n) = Some s → user_handler p ("process_" +:+ s) = None →
          handler_for p (_op n) = None) as HF.
  { intros s S U. unfold handler_for. by rewrite S. }
  destruct (py_str (_op n)) as [s|] eqn:S.
  2:{ apply process_unrecognised_raise in H as (? & ? & ? & ?). exists l, n.
      repeat split; try done. apply dispatch_ok_false; [|done|by rewrite S].
      unfold handler_for. by rewrite S. }
  destruct (hasattr p ("process_" +:+ s)) eqn:HA.
  - apply call_method_raise in H as (? & Hs & ? & ? & ?).
    + exists l, n. repeat split; try done.
      apply dispatch_ok_false; [by apply (HF s)|done|].
      rewrite S. intros [= ->]. done.
    + unfold hasattr in HA. by apply bool_decide_eq_true_1 in HA.
  - apply process_unrecognised_raise in H as (? & ? & ? & ?).
    unfold hasattr in HA. apply bool_decide_eq_false_1 in HA.
    rewrite getattr_cases in HA.
    exists l, n. repeat split; try done. apply dispatch_ok_false; [apply (HF s); [done|]|done|].
    + destruct (user_handler p ("process_" +:+ s)); [|done].
      exfalso. apply HA. by eexists.
    + rewrite S. intros [= ->]. apply HA.
      destruct (user_handler p ("process_" +:+ "primitive")); by eexists.
Qed.

(** Whatever the handlers do, as long as they raise nothing: an exception
    out of [process] is [PtNodeNotRecognised], and the node carried is in
    the store with an operator on which the dispatch of the processor
    fails: the processor is strict and has no handler for it. *)
Lemma process_raise (fuel : nat) : ∀ v h e h',
  process fuel p v h = Raise e h' →
  ∃ l n, e = PtNodeNotRecognised (VRef l)
       ∧ h' !! l = Some n ∧ dispatch_ok p (_op n) = false.
Proof.
  induction fuel as [|fuel IH]; intros v h e h' H; [done|].
  cbn [process] in H.
  apply bind_Raise_inv in H as [H|(node & h0 & H0 & H)].
  { by destruct v. }
  destruct node as [| | | | | |l];
    try (by apply process_primitive_quiet in H).
  apply bind_Raise_inv in H as [H|(a & h1 & _ & H)]; [by apply never_raises_get_a in H|].
  apply bind_Raise_inv in H as [H|(a' & h2 & _ & H)]; [by apply IH in H|].
  apply bind_Raise_inv in H as [H|(? & h3 & _ & H)]; [by apply never_raises_set_a in H|].
  apply bind_Raise_inv in H as [H|(b & h4 & _ & H)]; [by apply never_raises_get_b in H|].
  apply bind_Raise_inv in H as [H|(? & h5 & _ & H)].
  { destruct (is_None b); [done|].
    apply bind_Raise_inv in H as [H|(b' & h6 & _ & H)]; [by apply never_raises_get_b in H|].
    apply bind_Raise_inv in H as [H|(b'' & h7 & _ & H)]; [by apply IH in H|].
    by apply never_raises_set_b in H. }
  apply do_process_raise in H as [(l' & n & [= <-] & ? & -> & ? & ?)|(? & _)]; [|done].
  by exists l, n.
Qed.

End Quiet.

(** ** Processors whose handlers return the node they are given *)

Lemma process_tuple fuel p args h :
  process fuel p (VTuple args) h
  = process fuel p (VRef (length h)) (h ++ [PtNode_init args]).
Proof. by destruct fuel. Qed.

Section Idle.

Variable p : Processor.

Hypothesis idle : ∀ name f, user_handler p name = Some f → ∀ v h, f v h = Ok v h.
Hypothesis no_override : user_handler p "process_unrecognised" = None.

Lemma idle_primitive v h : process_primitive p v h = Ok v h.
Proof.
  unfold process_primitive, call_method. rewrite getattr_cases.
  destruct (user_handler p "process_primitive") as [f|] eqn:U; [by apply (idle _ _ U)|done].
Qed.

Lemma idle_pass l h n :
  h !! l = Some n → dispatch_ok p (_op n) = true → do_process p (VRef l) h = Ok (VRef l) h.
Proof.
  intros E D. rewrite (do_process_cases p l h n no_override E).
  unfold dispatch_ok, handler_for in *.
  destruct (py_str (_op n)) as [s|]; cbn in *.
  - destruct (user_handler p ("process_" +:+ s)) as [f|] eqn:U; [by apply (idle _ _ U)|].
    rewrite bool_decide_eq_false_2 in D by apply is_Some_None. cbn in D.
    destruct (bool_decide (Some s = Some "primitive")); [done|].
    by destruct (_strict p).
  - rewrite bool_decide_eq_false_2 in D by done.
    rewrite bool_decide_eq_false_2 by done. by destruct (_strict p).
Qed.

Lemma idle_reject l h n :
  h !! l = Some n → dispatch_ok p (_op n) = false →
  do_process p (VRef l) h = Raise (PtNodeNotRecognised (VRef l)) h.
Proof.
  intros E D. rewrite (do_process_cases p l h n no_override E).
  unfold dispatch_ok in D.
  apply orb_false_elim in D as [[D1 D2]%orb_false_elim D3].
  apply bool_decide_eq_false_1 in D1. rewrite D3.
  destruct (handler_for p (_op n)); [exfalso; apply D1; by eexists|].
  by destruct (_strict p).
Qed.

(** On the tuple of a raw tree, [process] returns when [dispatch_ok] holds
    of every operator of the tree, and raises [PtNodeNotRecognised] with a
    node whose operator fails [dispatch_ok] otherwise. *)
Lemma idle_process t fuel h :
  wf_raw t = true → depth t < fuel →
  if all_ok (dispatch_ok p) t
  then ∃ v h', process fuel p (encode t) h = Ok v h' ∧ extends h h'
  else ∃ l n h', process fuel p (encode t) h = Raise (PtNodeNotRecognised (VRef l)) h'
               ∧ h' !! l = Some n ∧ dispatch_ok p (_op n) = false ∧ extends h h'.
Proof.
  intros W D.
  assert (∃ v0 h0, process fuel p (encode t) h = process fuel p v0 h0
                 ∧ fresh_at h0 v0 t ∧ extends h h0) as (v0 & h0 & EP & F & X0).
  { destruct (is_tuple (encode t)) eqn:T.
    - destruct (encode t) as [| | | | |args|] eqn:Et; try done.
      exists (VRef (length h)), (h ++ [PtNode_init args]).
      split; [apply process_tuple|]. split; [by apply fresh_at_alloc|].
      destruct (encode_tuple_kids t args Et W) as (op & a & b & _ & _ & _ & _ & _ & I).
      split; [rewrite length_app; lia|]. split.
      + intros k n E. exists n. by rewrite lookup_app_l by (by eapply lookup_lt_Some).
      + intros k n Hk E. rewrite lookup_app_r in E by done.
        destruct (k - length h); cbn in E; [|done]. injection E as <-. by rewrite I.
    - destruct (wf_encode_leaf t T) as [v ->]. exists v, h.
      split; [done|]. split; [done|apply extends_refl]. }
  rewrite EP. destruct (all_ok (dispatch_ok p) t) eqn:A.
  - destruct (process_fresh_ok p (dispatch_ok p) (λ v h _, idle_primitive v h) idle_pass
                fuel t v0 h0 W A F D) as (h' & P & X & _).
    exists v0, h'. split; [done|by eapply extends_trans].
  - destruct (process_fresh_reject p (dispatch_ok p) (λ v h _, idle_primitive v h) idle_pass
                idle_reject fuel t v0 h0 W A F D) as (l & h' & n & P & E & O & X).
    exists l, n, h'. split; [done|]. split; [done|]. split; [done|by eapply extends_trans].
Qed.

End Idle.


Lemma no_user_handler strict name : user_handler (ParseTreeProcessor_new [] strict) name = None.
Proof. unfold user_handler. cbn. by rewrite lookup_empty. Qed.



(** ** Marking the root and its operands *)

Lemma x_update_Ok h l n d marks :
  h !! l = Some n → _x n = XExtras d →
  x_update l marks h = Ok tt (<[l := with_x n (XExtras (marks ∪ d))]> h).
Proof.
  intros E X. unfold x_update. step (load_Ok _ _ _ E). rewrite X. by apply store_Ok with n.
Qed.

Lemma fresh_at_with_x h v t l n x :
  fresh_at h v t → h !! l = Some n → fresh_at (<[l := with_x n x]> h) v t.
Proof.
  unfold fresh_at. intros F E. destruct (kids t) as [[[op a] b]|]; [|done].
  destruct F as (l' & n' & -> & E' & Hn). destruct (decide (l' = l)) as [->|Hne].
  - exists l, (with_x n x). split; [done|].
    split; [apply list_lookup_insert_eq; by eapply lookup_lt_Some|].
    assert (n' = n) as -> by congruence. done.
  - exists l', n'. split; [done|]. by rewrite list_lookup_insert_ne.
Qed.

Lemma mark_operand_a_fresh h l n a marks :
  h !! l = Some n → _a n = encode a → wf_raw a = true →
  ∃ va h', mark_operand_a l marks h = Ok tt h'
    ∧ h' !! l = Some (with_a n va) ∧ fresh_at h' va a ∧ is_tuple va = false
    ∧ (∀ k nk, h !! k = Some nk → k ≠ l → h' !! k = Some nk)
    ∧ (is_node va = false → h' = h)
    ∧ (∀ la, va = VRef la →
         la = length h ∧ length h' = S (length h)
         ∧ ∃ na, h' !! la = Some na ∧ _x na = XExtras (marks ∪ ∅)).
Proof.
  intros E Ea W. pose proof (lookup_lt_Some _ _ _ E) as Hl.
  destruct (get_a_fresh h l n a E Ea W) as (va & h1 & G & Gr & E1 & F & T & N & L).
  pose proof (get_a_extends _ _ _ _ _ _ E Ea W G) as (_ & _ & B).
  assert (get_a l h1 = Ok va h1) as G1 by (by apply (get_a_pure _ _ _ E1)).
  destruct va as [| | | | | |la] eqn:Eva.
  7:{ destruct (N _ eq_refl) as [-> Hlen].
      assert (∃ na, h1 !! length h = Some na) as [na Ena]
        by (apply lookup_lt_is_Some_2; lia).
      pose proof (B (length h) na (Nat.le_refl _) Ena) as Xna.
      exists (VRef (length h)), (<[length h := with_x na (XExtras (marks ∪ ∅))]> h1).
      split; [|split; [|split; [|split; [done|split; [|split; [done|]]]]]].
      - unfold mark_operand_a. step G. cbn [is_None]. step G1. cbn [is_node]. step G1.
        by apply x_update_Ok.
      - rewrite list_lookup_insert_ne by lia. done.
      - by apply fresh_at_with_x.
      - intros k nk Ek Hk. rewrite list_lookup_insert_ne by (apply lookup_lt_Some in Ek; lia).
        by eapply grows_lookup.
      - intros ? [= <-]. split; [done|]. split; [by rewrite length_insert|].
        exists (with_x na (XExtras (marks ∪ ∅))). split; [|done].
        apply list_lookup_insert_eq. lia. }
  all: try done.
  all: rewrite (L eq_refl) in *; eexists _, h; split;
    [unfold mark_operand_a; step G; cbn [is_None]; try done; by step G1|];
    split; [done|]; split; [done|]; split; [done|]; split; [done|]; split; [done|];
    by intros.
Qed.

Lemma mark_operand_b_fresh h l n b marks :
  h !! l = Some n → _b n = encode b → wf_raw b = true →
  ∃ vb h', mark_operand_b l marks h = Ok tt h'
    ∧ h' !! l = Some (with_b n vb) ∧ fresh_at h' vb b ∧ is_tuple vb = false
    ∧ (∀ k nk, h !! k = Some nk → k ≠ l → h' !! k = Some nk)
    ∧ (is_node vb = false → h' = h)
    ∧ (∀ lb, vb = VRef lb →
         lb = length h ∧ length h' = S (length h)
         ∧ ∃ nb, h' !! lb = Some nb ∧ _x nb = XExtras (marks ∪ ∅)).
Proof.
  intros E Eb W. pose proof (lookup_lt_Some _ _ _ E) as Hl.
  destruct (get_b_fresh h l n b E Eb W) as (vb & h1 & G & Gr & E1 & F & T & N & L).
  pose proof (get_b_extends _ _ _ _ _ _ E Eb W G) as (_ & _ & B).
  assert (get_b l h1 = Ok vb h1) as G1 by (by apply (get_b_pure _ _ _ E1)).
  destruct vb as [| | | | | |lb] eqn:Evb.
  7:{ destruct (N _ eq_refl) as [-> Hlen].
      assert (∃ nb, h1 !! length h = Some nb) as [nb Enb]
        by (apply lookup_lt_is_Some_2; lia).
      pose proof (B (length h) nb (Nat.le_refl _) Enb) as Xnb.
      exists (VRef (length h)), (<[length h := with_x nb (XExtras (marks ∪ ∅))]> h1).
      split; [|split; [|split; [|split; [done|split; [|split; [done|]]]]]].
      - unfold mark_operand_b. step G. cbn [is_None]. step G1. cbn [is_node]. step G1.
        by apply x_update_Ok.
      - rewrite list_lookup_insert_ne by lia. done.
      - by apply fresh_at_with_x.
      - intros k nk Ek Hk. rewrite list_lookup_insert_ne by (apply lookup_lt_Some in Ek; lia).
        by eapply grows_lookup.
      - intros ? [= <-]. split; [done|]. split; [by rewrite length_insert|].
        exists (with_x nb (XExtras (marks ∪ ∅))). split; [|done].
        apply list_lookup_insert_eq. lia. }
  all: try done.
  all: rewrite (L eq_refl) in *; eexists _, h; split;
    [unfold mark_operand_b; step G; cbn [is_None]; try done; by step G1|];
    split; [done|]; split; [done|]; split; [done|]; split; [done|]; split; [done|];
    by intros.
Qed.

Lemma x_getattr_missing h l n d key :
  h !! l = Some n → _x n = XExtras d → d !! key = None →
  x_getattr l key h = Ok VNone (<[l := with_x n (XExtras (<[key := VNone]> d))]> h).
Proof.
  intros E X D. unfold x_getattr. step (load_Ok _ _ _ E). rewrite X, D.
  by step (store_Ok _ _ _ (with_x n (XExtras (<[key := VNone]> d))) E).
Qed.

Lemma x_getattr_present h l n d key v :
  h !! l = Some n → _x n = XExtras d → d !! key = Some v →
  x_getattr l key h = Ok v h.
Proof.
  intros E X D. unfold x_getattr. step (load_Ok _ _ _ E). by rewrite X, D.
Qed.

Lemma x_setattr_Ok h l n d key v :
  h !! l = Some n → _x n = XExtras d →
  x_setattr l key v h = Ok tt (<[l := with_x n (XExtras (<[key := v]> d))]> h).
Proof.
  intros E X. unfold x_setattr. step (load_Ok _ _ _ E). rewrite X. by apply store_Ok with n.
Qed.

Lemma fresh_at_preserved l h h' v t :
  fresh_at h v t → (∀ k nk, h !! k = Some nk → k ≠ l → h' !! k = Some nk) →
  v ≠ VRef l → fresh_at h' v t.
Proof.
  unfold fresh_at. intros F P Hv. destruct (kids t) as [[[op a] b]|]; [|done].
  destruct F as (l' & n & -> & E & Hn). exists l', n. split; [done|]. split; [|done].
  apply P; [done|congruence].
Qed.

Lemma slot_loop_step call all_slots idx node h :
  slot_loop call all_slots idx node h =
    if decide (idx < length all_slots) then
      match slot_pass call all_slots idx node h with
      | Ok node' h' => slot_loop call all_slots (S idx) node' h'
      | Raise e h' => Raise e h'
      | Fault => Fault
      | OutOfFuel => OutOfFuel
      end
    else Ok node h.
Proof.
  rewrite slot_loop_equation_1. destruct (decide (idx < length all_slots)); [|done].
  cbn. by destruct (slot_pass call all_slots idx node h).
Qed.

Lemma marks_union_empty (marks : gmap string value) : marks ∪ ∅ = marks.
Proof. apply (right_id_L ∅ (∪)). Qed.

(** The [process] method of a chain, given the tuple of a node: up to the
    loop over the slots. *)
Lemma mark_phase call all_slots t args h :
  wf_raw t = true → encode t = VTuple args →
  ∃ hm va vb,
    multi_process call all_slots (encode t) h
    = slot_loop call all_slots 0 (VRef (length h)) hm
    ∧ marked h t hm va vb.
Proof.
  intros W Et.
  destruct (encode_tuple_kids t args Et W) as (op & a & b & K & Wa & Wb & _ & _ & I).
  set (l := length h). set (n0 := PtNode_init args).
  set (n2 := with_x n0 (XExtras {["is_root" := VBool true]})).
  set (h2 := <[l := n2]> (h ++ [n0])).
  assert (h2 !! l = Some n2) as E2.
  { apply list_lookup_insert_eq. rewrite length_app. cbn. lia. }
  assert (length h2 = S l) as L2.
  { unfold h2. rewrite length_insert, length_app. cbn. lia. }
  assert (∀ k, k < l → h2 !! k = h !! k) as Old2.
  { intros k Hk. unfold h2. rewrite list_lookup_insert_ne by lia. by apply lookup_app_l. }
  assert (_a n2 = encode a ∧ _b n2 = encode b ∧ _op n2 = op) as (Ea & Eb & Eop).
  { unfold n2, n0. by rewrite I. }
  destruct (mark_operand_a_fresh h2 l n2 a {["is_root" := VBool false]} E2 Ea Wa)
    as (va & h3 & Ma & E3 & Fa & Ta & Pa & La & Na).
  destruct (mark_operand_b_fresh h3 l (with_a n2 va) b {["is_root" := VBool false]} E3 Eb Wb)
    as (vb & h4 & Mb & E4 & Fb & Tb & Pb & Lb & Nb).
  rewrite marks_union_empty in Na, Nb.
  assert (length h3 = length h2 + (if is_node va then 1 else 0)) as L3.
  { destruct (is_node va) eqn:Nva.
    - destruct va; try done. destruct (Na _ eq_refl) as (_ & -> & _). lia.
    - rewrite (La eq_refl). lia. }
  assert (length h4 = length h3 + (if is_node vb then 1 else 0)) as L4.
  { destruct (is_node vb) eqn:Nvb.
    - destruct vb; try done. destruct (Nb _ eq_refl) as (_ & -> & _). lia.
    - rewrite (Lb eq_refl). lia. }
  exists h4, va, vb. split.
  - unfold multi_process. rewrite Et.
    step (alloc_Ok h n0). fold l.
    assert ((h ++ [n0]) !! l = Some n0) as E0.
    { rewrite lookup_app_r by (unfold l; lia). by rewrite Nat.sub_diag. }
    assert (_x n0 = XExtras ∅) as X0 by (unfold n0; by rewrite I).
    step (x_getattr_missing _ _ _ _ "is_root" E0 X0 (lookup_empty _)). cbn [is_None].
    erewrite bind_Ok; cycle 1.
    { eapply x_setattr_Ok; [apply list_lookup_insert_eq; rewrite length_app; cbn; lia|].
      reflexivity. }
    rewrite list_insert_insert_eq, insert_insert_eq. fold n2. fold h2.
    unfold mark_operands. step Ma. by step Mb.
  - exists op, a, b, (with_b (with_a n2 va) vb).
    split; [done|]. split; [done|]. split; [done|]. split; [done|]. split; [done|].
    split; [done|]. split.
    { eapply fresh_at_preserved; [done|done|]. intros ->. destruct (Na _ eq_refl). lia. }
    split; [done|]. split; [done|]. split; [done|]. split; [lia|]. split.
    { intros k Hk. destruct (h !! k) as [nk|] eqn:Ek.
      - apply Pb; [|lia]. apply Pa; [|lia]. by rewrite Old2.
      - apply lookup_ge_None in Ek. lia. }
    split.
    { intros k Hk. destruct (is_node va) eqn:Nva; destruct (is_node vb) eqn:Nvb.
      - destruct va, vb; try done. destruct (Na _ eq_refl) as (-> & _).
        destruct (Nb _ eq_refl) as (-> & _).
        destruct (decide (k = length h2)) as [->|]; [by left|]. right. f_equal. lia.
      - destruct va; try done. destruct (Na _ eq_refl) as (-> & _). left. f_equal. lia.
      - destruct vb; try done. destruct (Nb _ eq_refl) as (-> & _). right. f_equal. lia.
      - lia. }
    split.
    { intros k [->| ->].
      - destruct (Na _ eq_refl) as (-> & Hlen & na & Ena & Xna). split; [cbn in *; lia|].
        exists na. split; [|done]. apply Pb; [done|lia].
      - destruct (Nb _ eq_refl) as (-> & Hlen & nb & Enb & Xnb). split; [cbn in *; lia|].
        by exists nb. }
    intros k Hva Hvb. destruct (Na _ Hva) as (Ha & Hlen & _).
    destruct (Nb _ Hvb) as (Hb & _). lia.
Qed.

(** ** A chain inside a chain *)

Lemma current_slot_length all_slots idx p ps :
  _current_slot all_slots idx = p :: ps → idx < length all_slots.
Proof.
  unfold _current_slot. destruct (all_slots !! idx) eqn:E; [|done].
  intros _. by eapply lookup_lt_Some.
Qed.

(** C9, as amended. The constructor of a chain takes any slots: its only
    check is on the name of the class, and refuses a subclass with
    [RuntimeError].  A chain that is a member of a slot is stopped when the
    outer chain runs: its [do_process] raises [RuntimeError], and when it is
    the first member of the first slot, [process] of the outer chain on the
    tuple of a node raises [AssertionError], since the operand handed to the
    inner chain is a primitive or a node already marked [is_root = False]. *)
Theorem chain_members_are_checked_at_run_time :
  (∀ all_slots h,
     ParseTreeMultiProcessor_init "ParseTreeMultiProcessor" all_slots h = Ok (Multi all_slots) h)
  ∧ (∀ name all_slots h, name ≠ "ParseTreeMultiProcessor" →
       ParseTreeMultiProcessor_init name all_slots h
       = Raise (RuntimeError "Attempting to extend ParseTreeMultiProcessor") h)
  ∧ (∀ fuel inner v h,
       invoke (S fuel) (Multi inner) M_do_process v h = Raise (RuntimeError "Do not call this") h)
  ∧ (∀ fuel all_slots inner rest t args h,
       _current_slot all_slots 0 = Multi inner :: rest →
       wf_raw t = true → encode t = VTuple args →
       ∃ hm, ParseTreeMultiProcessor_process (S fuel) all_slots (encode t) h
             = Raise AssertionError hm).
Proof.
  split; [done|]. split.
  { intros name all_slots h Hn. unfold ParseTreeMultiProcessor_init.
    by rewrite decide_True. }
  split; [done|].
  intros fuel all_slots inner rest t args h Hslot W Et.
  destruct (mark_phase (invoke (S fuel)) all_slots t args h W Et) as (hm & va & vb & EP & Hm).
  destruct Hm as (op & a & b & nl & K & El & Eop & Ea & Eb & Xl & Fa & Fb & Ta & Tb
                  & Hlen & Hold & Hnew & Hch & Hdis).
  exists hm. unfold ParseTreeMultiProcessor_process. rewrite EP, slot_loop_step.
  rewrite decide_True by (by eapply current_slot_length).
  assert (slot_pass (invoke (S fuel)) all_slots 0 (VRef (length h)) hm
          = Raise AssertionError hm) as ->; [|done].
  unfold slot_pass.
  assert (get_a (length h) hm = Ok va hm) as Ga.
  { rewrite <- Ea. apply get_a_pure; [done|]. by rewrite Ea. }
  step Ga. apply bind_Raise. unfold _process_in_current_slot. rewrite Hslot.
  cbn [for_each]. apply bind_Raise. cbn [invoke]. unfold multi_process.
  destruct va as [| | | | | |la]; try done.
  destruct (Hch la (or_introl eq_refl)) as (_ & na & Ena & Xna).
  rewrite ret_bind. cbn beta iota.
  by step (x_getattr_present _ _ _ _ "is_root" _ Ena Xna (lookup_singleton_eq _ _)).
Qed.

(** C9, as stated, fails: a chain is accepted as a member of a slot of
    another chain, and the nesting comes out only as an exception when the
    outer chain runs. *)
Lemma chain_nested_in_chain :
  ParseTreeMultiProcessor_init "ParseTreeMultiProcessor" [One (Multi [One (Single plain)])] []
  = Ok (Multi [One (Multi [One (Single plain)])]) []
  ∧ ∃ hm, ParseTreeMultiProcessor_process 5 [One (Multi [One (Single plain)])] xyz []
          = Raise AssertionError hm.
Proof. split; [reflexivity|]. eexists. vm_compute. reflexivity. Qed.

(** ** A chain of passive processors *)

Lemma all_ok_true t : all_ok (λ _, true) t = true.
Proof. induction t as [|op a IHa|op a IHa b IHb]; cbn; [done|by rewrite IHa|by rewrite IHa, IHb]. Qed.

Lemma blank_extends m h h' : blank_from m h → extends h h' → blank_from m h'.
Proof.
  intros B (L & Kp & Bn) k n Hk E. destruct (decide (k < length h)) as [Hlt|Hge].
  - destruct (lookup_lt_is_Some_2 h k Hlt) as [n0 E0].
    destruct (Kp k n0 E0) as (n' & E' & X' & _).
    assert (n' = n) as -> by congruence. rewrite X'. by apply (B k).
  - apply (Bn k); [lia|done].
Qed.

Lemma rooted_stable lo hi h h' v t :
  rooted lo hi h v t → (∀ l, v = VRef l → h' !! l = h !! l) →
  (∀ k, lo ≤ k < hi → h' !! k = h !! k) → rooted lo hi h' v t.
Proof.
  unfold rooted. intros R Hr Hs. destruct (kids t) as [[[op a] b]|]; [|done].
  destruct R as (l & n & -> & E & Eop & Ma & Mb). exists l, n.
  split; [done|]. split; [by rewrite (Hr l)|]. split; [done|].
  split; by eapply mat_stable.
Qed.

Lemma settled_stable N0 h h' v t l' :
  wf_raw t = true →
  settled N0 h v t → grows l' h h' → l' < N0 → v ≠ VRef l' → settled N0 h' v t.
Proof.
  intros W [F|(lo & hi & Hlo & Hhi & R)] G Hl Hv.
  - left. by eapply fresh_at_grows.
  - right. exists lo, hi. split; [done|]. destruct G as [L G]. split; [lia|].
    eapply rooted_stable; [done| |].
    + intros l ->. apply G; [|congruence].
      unfold rooted in R. destruct (kids t) as [[[op a] b]|].
      * destruct R as (l0 & n & [= <-] & E & _). by eapply lookup_lt_Some.
      * destruct t; try done. cbn in *. subst. by apply is_primitive_spec in W as [_ ?].
    + intros k Hk. apply G; lia.
Qed.

Lemma settled_not_tuple N0 h v t : wf_raw t = true → settled N0 h v t → is_tuple v = false.
Proof.
  intros W [F|(lo & hi & _ & _ & R)].
  - unfold fresh_at in F. destruct (kids t) as [[[op a] b]|] eqn:K; [by destruct F as (? & ? & -> & _)|].
    destruct t; try done. cbn in *. subst. by apply is_primitive_spec in W as [? _].
  - unfold rooted in R. destruct (kids t) as [[[op a] b]|] eqn:K; [by destruct R as (? & ? & -> & _)|].
    destruct t; try done. cbn in *. subst. by apply is_primitive_spec in W as [? _].
Qed.

(** One passive processor on an operand of the root. *)
Lemma passive_step p fuel N0 h v t :
  declines p → wf_raw t = true → depth t < fuel →
  settled N0 h v t → N0 ≤ length h → (∀ l, v = VRef l → l < N0) →
  ∃ h', process fuel p v h = Ok v h' ∧ extends h h' ∧ settled N0 h' v t
      ∧ (is_node v = false → h' = h) ∧ (∀ l, v = VRef l → grows l h h').
Proof.
  intros [Dp Dn] W D [F|(lo & hi & Hlo & Hhi & R)] HN Hv.
  - destruct (process_fresh_ok p (λ _, true) Dp (λ l h n E _, Dn l h n E)
                fuel t v h W (all_ok_true t) F D) as (h' & P & X & L & G & R).
    exists h'. split; [done|]. split; [done|]. split; [|done].
    right. exists (length h), (length h'). destruct X as [? _]. split; [lia|]. split; [lia|done].
  - exists h. split; [|split; [apply extends_refl|split; [|split; [done|]]]].
    + apply (process_mat_id p (λ _, true) Dp (λ l h n E _, Dn l h n E) fuel 0 hi t);
        [|apply all_ok_true|done].
      eapply rooted_mat; [done|done|lia|]. intros l ->. specialize (Hv l eq_refl). lia.
    + right. by exists lo, hi.
    + intros l _. apply grows_refl.
Qed.

Section ChainRun.

Variables (h0 : heap) (op : value) (a b : raw) (va vb : value) (N0 fuel : nat).

Hypothesis Wa : wf_raw a = true.
Hypothesis Wb : wf_raw b = true.
Hypothesis Da : depth a < fuel.
Hypothesis Db : depth b < fuel.
Hypothesis Hva : ∀ k, va = VRef k → length h0 < k < N0.
Hypothesis Hvb : ∀ k, vb = VRef k → length h0 < k < N0.
Hypothesis Hdis : ∀ k, va = VRef k → vb = VRef k → False.

Lemma chain_inv_update H H' v :
  chain_inv h0 op a b va vb N0 H → extends H H' →
  (is_node v = false → H' = H) → (∀ l, v = VRef l → grows l H H') →
  (∀ k, v = VRef k → length h0 < k < N0) →
  settled N0 H' va a → settled N0 H' vb b →
  chain_inv h0 op a b va vb N0 H'.
Proof.
  intros ((nl & El & Hnl) & Sa & Sb & HN & Hold & Hx & B) X L G Hv Sa' Sb'.
  destruct (is_node v) eqn:Nv.
  2:{ rewrite (L eq_refl). repeat split; try done. by exists nl. }
  destruct v as [| | | | | |lv]; try done.
  specialize (G lv eq_refl). specialize (Hv lv eq_refl).
  split; [|split; [done|split; [done|split; [|split; [|split]]]]].
  - exists nl. split; [|done]. eapply grows_lookup; [done|done|lia].
  - destruct X as [? _]. lia.
  - intros k Hk. rewrite <- (Hold k Hk). destruct G as [_ G]. apply G; lia.
  - intros k Hk. destruct (Hx k Hk) as (nk & Ek & Xk).
    destruct X as (_ & Kp & _). destruct (Kp k nk Ek) as (n' & E' & X' & _).
    exists n'. by rewrite X'.
  - by eapply blank_extends.
Qed.

Lemma chain_inv_a p H :
  declines p → chain_inv h0 op a b va vb N0 H →
  ∃ H', process fuel p va H = Ok va H' ∧ chain_inv h0 op a b va vb N0 H'.
Proof.
  intros Dp Inv. pose proof Inv as (_ & Sa & Sb & HN & _).
  destruct (passive_step p fuel N0 H va a Dp Wa Da Sa HN) as (H' & P & X & Sa' & L & G).
  { intros l E. specialize (Hva l E). lia. }
  exists H'. split; [done|]. eapply (chain_inv_update H H' va); try done.
  destruct (is_node va) eqn:Nv.
  - destruct va as [| | | | | |la] eqn:Eva; try done.
    eapply settled_stable; [done|done|by apply G| |].
    + specialize (Hva la eq_refl). lia.
    + intros E. by apply (Hdis la).
  - by rewrite (L eq_refl).
Qed.

Lemma chain_inv_b p H :
  declines p → chain_inv h0 op a b va vb N0 H →
  ∃ H', process fuel p vb H = Ok vb H' ∧ chain_inv h0 op a b va vb N0 H'.
Proof.
  intros Dp Inv. pose proof Inv as (_ & Sa & Sb & HN & _).
  destruct (passive_step p fuel N0 H vb b Dp Wb Db Sb HN) as (H' & P & X & Sb' & L & G).
  { intros l E. specialize (Hvb l E). lia. }
  exists H'. split; [done|]. eapply (chain_inv_update H H' vb); try done.
  destruct (is_node vb) eqn:Nv.
  - destruct vb as [| | | | | |lb] eqn:Evb; try done.
    eapply settled_stable; [done|done|by apply G| |].
    + specialize (Hvb lb eq_refl). lia.
    + intros E. by apply (Hdis lb).
  - by rewrite (L eq_refl).
Qed.

Lemma for_each_a ms : ∀ H,
  Forall passive ms → chain_inv h0 op a b va vb N0 H →
  ∃ H', for_each (invoke (S fuel)) ms M_process va H = Ok va H'
      ∧ chain_inv h0 op a b va vb N0 H'.
Proof.
  induction ms as [|m ms IH]; intros H Hp Inv; [by exists H|].
  apply Forall_cons in Hp as [(p & -> & Dp) Hp].
  destruct (chain_inv_a p H Dp Inv) as (H1 & P & Inv1).
  destruct (IH H1 Hp Inv1) as (H2 & F & Inv2).
  exists H2. split; [|done]. cbn [for_each invoke]. by step P.
Qed.

Lemma for_each_b ms : ∀ H,
  Forall passive ms → chain_inv h0 op a b va vb N0 H →
  ∃ H', for_each (invoke (S fuel)) ms M_process vb H = Ok vb H'
      ∧ chain_inv h0 op a b va vb N0 H'.
Proof.
  induction ms as [|m ms IH]; intros H Hp Inv; [by exists H|].
  apply Forall_cons in Hp as [(p & -> & Dp) Hp].
  destruct (chain_inv_b p H Dp Inv) as (H1 & P & Inv1).
  destruct (IH H1 Hp Inv1) as (H2 & F & Inv2).
  exists H2. split; [|done]. cbn [for_each invoke]. by step P.
Qed.

Lemma for_each_root ms H nl :
  Forall passive ms → H !! length h0 = Some nl →
  for_each (invoke (S fuel)) ms M_do_process (VRef (length h0)) H = Ok (VRef (length h0)) H.
Proof.
  intros Hp El. induction ms as [|m ms IH]; [done|].
  apply Forall_cons in Hp as [(p & -> & _ & Dn) Hp].
  cbn [for_each invoke]. step (Dn _ _ _ El). by apply IH.
Qed.

Lemma current_slot_passive all_slots idx :
  Forall passive_slot all_slots → Forall passive (_current_slot all_slots idx).
Proof.
  intros Hs. unfold _current_slot. destruct (all_slots !! idx) as [s|] eqn:E; [|done].
  pose proof (proj1 (Forall_lookup _ _) Hs idx s E) as Hp.
  destruct s; cbn in Hp; [by apply Forall_singleton|done].
Qed.

(** One pass over one slot. *)
Lemma slot_pass_inv all_slots idx H :
  Forall passive_slot all_slots → chain_inv h0 op a b va vb N0 H →
  ∃ H', slot_pass (invoke (S fuel)) all_slots idx (VRef (length h0)) H
        = Ok (VRef (length h0)) H'
      ∧ chain_inv h0 op a b va vb N0 H'.
Proof.
  intros Hs Inv. pose proof (current_slot_passive all_slots idx Hs) as Hp.
  pose proof Inv as ((nl & El & _ & Ea & Eb & _) & Sa & Sb & _).
  pose proof (settled_not_tuple _ _ _ _ Wa Sa) as Ta.
  pose proof (settled_not_tuple _ _ _ _ Wb Sb) as Tb.
  destruct (for_each_a _ H Hp Inv) as (H1 & Fa & Inv1).
  pose proof Inv1 as ((nl1 & El1 & _ & Ea1 & Eb1 & _) & _).
  assert (∃ H2, ((if is_None vb then mret ()
                  else get_b (length h0) ≫= λ b0,
                       _process_in_current_slot (invoke (S fuel)) all_slots idx M_process b0
                       ≫= λ b1, set_b (length h0) b1) : M ()) H1 = Ok () H2
                ∧ chain_inv h0 op a b va vb N0 H2) as (H2 & Fb & Inv2).
  { destruct (is_None vb) eqn:Nb; [by exists H1|].
    destruct (for_each_b _ H1 Hp Inv1) as (H2 & Fb & Inv2).
    pose proof Inv2 as ((nl2 & El2 & _ & _ & Eb2 & _) & _).
    exists H2. split; [|done].
    assert (get_b (length h0) H1 = Ok vb H1) as Gb.
    { rewrite <- Eb1. apply get_b_pure; [done|]. by rewrite Eb1. }
    step Gb. unfold _process_in_current_slot. step Fb.
    rewrite <- Eb2. by apply set_b_same. }
  pose proof Inv2 as ((nl2 & El2 & _) & _).
  exists H2. split; [|done]. unfold slot_pass.
  assert (get_a (length h0) H = Ok va H) as Ga.
  { rewrite <- Ea. apply get_a_pure; [done|]. by rewrite Ea. }
  step Ga. unfold _process_in_current_slot at 1. step Fa.
  assert (set_a (length h0) va H1 = Ok () H1) as Sa1.
  { rewrite <- Ea1. by apply set_a_same. }
  step Sa1.
  assert (get_b (length h0) H1 = Ok vb H1) as Gb.
  { rewrite <- Eb1. apply get_b_pure; [done|]. by rewrite Eb1. }
  step Gb. step Fb. unfold _process_in_current_slot. by eapply for_each_root.
Qed.

Lemma slot_loop_inv all_slots : ∀ n idx H,
  n = length all_slots - idx →
  Forall passive_slot all_slots → chain_inv h0 op a b va vb N0 H →
  ∃ H', slot_loop (invoke (S fuel)) all_slots idx (VRef (length h0)) H
        = Ok (VRef (length h0)) H'
      ∧ chain_inv h0 op a b va vb N0 H'.
Proof.
  induction n as [|n IH]; intros idx H Hn Hs Inv; rewrite slot_loop_step.
  - rewrite decide_False by lia. by exists H.
  - rewrite decide_True by lia.
    destruct (slot_pass_inv all_slots idx H Hs Inv) as (H1 & P & Inv1). rewrite P.
    apply IH; [lia|done|done].
Qed.

End ChainRun.

Lemma plain_declines : declines plain.
Proof.
  split.
  - intros v h _. unfold process_primitive, call_method.
    by rewrite getattr_cases, (no_user_handler false).
  - intros l h n E. rewrite (do_process_cases plain l h n (no_user_handler false _) E).
    unfold handler_for. destruct (py_str (_op n)) as [s|]; cbn.
    + rewrite (no_user_handler false). by destruct (bool_decide _).
    + by destruct (bool_decide _).
Qed.

(** A chain of passive processors on the tuple of a node: the call returns
    the root, which keeps the marks it got, as do its operands; every other
    node created has no annotations, and the old store is intact. *)
Lemma passive_chain_run (t : raw) (args : list value) (fuel : nat) (h : heap)
    (all_slots : list slot) :
  wf_raw t = true → encode t = VTuple args →
  Forall passive_slot all_slots → depth t < fuel →
  ∃ h' nl,
    ParseTreeMultiProcessor_process fuel all_slots (encode t) h = Ok (VRef (length h)) h'
    ∧ h' !! length h = Some nl
    ∧ _x nl = XExtras {["is_root" := VBool true]}
    ∧ (∀ k, _a nl = VRef k ∨ _b nl = VRef k →
         ∃ nk, h' !! k = Some nk ∧ _x nk = XExtras {["is_root" := VBool false]})
    ∧ (∀ k nk, length h < k → _a nl ≠ VRef k → _b nl ≠ VRef k →
         h' !! k = Some nk → _x nk = XExtras ∅)
    ∧ (∀ k, k < length h → h' !! k = h !! k).
Proof.
  intros W Et Hs D. destruct fuel as [|fuel]; [lia|].
  destruct (mark_phase (invoke (S fuel)) all_slots t args h W Et) as (hm & va & vb & EP & Hm).
  destruct Hm as (op & a & b & nl & K & El & Eop & Ea & Eb & Xl & Fa & Fb & Ta & Tb
                  & Hlen & Hold & Hnew & Hch & Hdis).
  destruct (kids_wf _ _ _ _ K W) as (Wa & Wb & Dt).
  assert (chain_inv h op a b va vb (length hm) hm) as Inv.
  { split; [by exists nl|]. split; [by left|]. split; [by left|]. split; [done|].
    split; [done|]. split; [intros k Hk; by destruct (Hch k Hk)|].
    intros k n Hk E. apply lookup_lt_Some in E. lia. }
  destruct (slot_loop_inv h op a b va vb (length hm) fuel Wa Wb ltac:(lia) ltac:(lia)
              (λ k E, proj1 (Hch k (or_introl E))) (λ k E, proj1 (Hch k (or_intror E)))
              Hdis all_slots _ 0 hm eq_refl Hs Inv) as (h' & L & Inv').
  destruct Inv' as ((nl' & El' & _ & Ea' & Eb' & Xl') & _ & _ & HN & Hold' & Hx & B).
  exists h', nl'. unfold ParseTreeMultiProcessor_process. rewrite EP.
  split; [done|]. split; [done|]. split; [done|]. split; [|split; [|done]].
  - intros k Hk. apply Hx. by rewrite <- Ea', <- Eb'.
  - intros k nk Hk Hak Hbk E. destruct (decide (k < length hm)) as [Hlt|Hge].
    + rewrite Ea', Eb' in *. destruct (Hnew k ltac:(lia)) as [->| ->]; done.
    + apply (B k); [lia|done].
Qed.



(** ** A second call on the same root *)

Lemma marked_root_refused (fuel : nat) (all_slots : list slot) (h : heap) (l : loc)
    (n : PtNode) (d : gmap string value) (v : value) :
  h !! l = Some n → _x n = XExtras d → d !! "is_root" = Some v → is_None v = false →
  ParseTreeMultiProcessor_process fuel all_slots (VRef l) h = Raise AssertionError h.
Proof.
  intros E X D V. unfold ParseTreeMultiProcessor_process, multi_process.
  erewrite bind_Ok by reflexivity. cbn beta iota.
  erewrite bind_Ok; [by rewrite V|].
  unfold x_getattr. erewrite bind_Ok by (by apply load_Ok).
  by rewrite X, D.
Qed.

(** C4. When the annotation [is_root] of the root node holds anything but
    [None], the [process] method of a chain raises [AssertionError] before
    it changes the store or runs any slot.  This is the state in which a
    first call leaves the root: after a chain of processors that leave the
    nodes as they are has returned the root of a tree, a second call of
    [process] on that root, by the same chain or another, raises
    [AssertionError]. *)
Theorem multi_process_rejects_marked_root :
  (∀ fuel all_slots h l n d v,
     h !! l = Some n → _x n = XExtras d → d !! "is_root" = Some v → is_None v = false →
     ParseTreeMultiProcessor_process fuel all_slots (VRef l) h = Raise AssertionError h)
  ∧ (∀ t args fuel h all_slots,
       wf_raw t = true → encode t = VTuple args →
       Forall passive_slot all_slots → depth t < fuel →
       ∃ root h',
         ParseTreeMultiProcessor_process fuel all_slots (encode t) h = Ok (VRef root) h'
         ∧ ∀ fuel' all_slots',
             ParseTreeMultiProcessor_process fuel' all_slots' (VRef root) h'
             = Raise AssertionError h').
Proof.
  split; [intros *; by apply marked_root_refused|].
  intros t args fuel h all_slots W Et Hs D.
  destruct (passive_chain_run t args fuel h all_slots W Et Hs D)
    as (h' & nl & P & El & Xl & _).
  exists (length h), h'. split; [done|]. intros fuel' all_slots'.
  by apply (marked_root_refused fuel' all_slots' h' (length h) nl _ (VBool true) El Xl
              (lookup_singleton_eq _ _)).
Qed.

(** The chain [ParseTreeMultiProcessor(ParseTreeProcessor())] run twice on
    the root of [("x", ("y", 1), ("z", 2))]. *)
Lemma multi_process_rejects_marked_root_witness :
  ∃ root h',
    ParseTreeMultiProcessor_process 3 [One (Single plain)] xyz [] = Ok (VRef root) h'
    ∧ ParseTreeMultiProcessor_process 3 [One (Single plain)] (VRef root) h'
      = Raise AssertionError h'.
Proof.
  destruct (proj2 multi_process_rejects_marked_root
              (RBin (VStr "x") (RUn (VStr "y") (RLeaf (VInt 1))) (RUn (VStr "z") (RLeaf (VInt 2))))
              _ 3 [] [One (Single plain)] eq_refl eq_refl) as (root & h' & P & R).
  - apply Forall_singleton. exists plain. split; [reflexivity|apply plain_declines].
  - cbn. lia.
  - exists root, h'. split; [done|apply R].
Defined.

(** ** The slots of a chain, one after the other *)

Lemma bind_ext {A B} (m : M A) (f g : A → M B) h :
  (∀ a h', f a h' = g a h') → (m ≫= f) h = (m ≫= g) h.
Proof. intros E. unfold mbind, M_bind. by destruct (m h). Qed.

Lemma bind_cong {A B} (m m' : M A) (f g : A → M B) h :
  m h = m' h → (∀ a h', f a h' = g a h') → (m ≫= f) h = (m' ≫= g) h.
Proof. intros Em E. unfold mbind, M_bind. rewrite Em. by destruct (m' h). Qed.

Lemma spec_chain_for_each call members name : ∀ (acc : M value) h,
  foldl (λ (acc : M value) p, v ← acc; call p name v) acc members h
  = (acc ≫= for_each call members name) h.
Proof.
  induction members as [|p ps IH]; intros acc h; cbn [foldl for_each].
  - unfold mbind, M_bind. by destruct (acc h).
  - rewrite IH. by rewrite bind_assoc.
Qed.

Lemma for_each_spec_chain call members name v h :
  for_each call members name v h = spec_chain call members name v h.
Proof. unfold spec_chain. by rewrite spec_chain_for_each. Qed.

Lemma current_slot_members all_slots idx s :
  all_slots !! idx = Some s → _current_slot all_slots idx = members_of s.
Proof. intros E. unfold _current_slot. rewrite E. by destruct s. Qed.

(** A second read of operand [b] returns what the first one returned. *)
Lemma get_b_again l h b h1 : get_b l h = Ok b h1 → get_b l h1 = Ok b h1.
Proof.
  intros G. destruct (h !! l) as [n|] eqn:E.
  2:{ unfold get_b, load in G. unfold mbind, M_bind in G. by rewrite E in G. }
  destruct (get_b_grows h l n E) as (v & h' & G' & _ & E' & Hleaf & Hnode).
  rewrite G in G'. injection G' as <- <-.
  assert (is_tuple b = false) as T.
  { destruct (is_tuple (_b n)) eqn:T.
    - destruct (_b n) as [| | | | |args|]; try done. by destruct (Hnode args eq_refl) as (-> & _).
    - destruct (Hleaf eq_refl) as [-> _]. done. }
  by rewrite (get_b_pure _ _ _ E').
Qed.

Lemma slot_pass_spec_stage call all_slots idx s node h :
  all_slots !! idx = Some s →
  slot_pass call all_slots idx node h = spec_stage call (members_of s) node h.
Proof.
  intros E. unfold slot_pass, spec_stage, _process_in_current_slot.
  rewrite (current_slot_members _ _ _ E).
  destruct node as [| | | | | |l]; try done.
  apply bind_ext. intros a h1.
  apply bind_cong; [apply for_each_spec_chain|]. intros a' h2.
  apply bind_ext. intros _ h3.
  destruct (get_b l h3) as [b h4| | |] eqn:Gb;
    try (unfold mbind, M_bind; by rewrite Gb).
  rewrite !(bind_Ok _ _ _ _ _ Gb).
  destruct (is_None b).
  - rewrite !ret_bind. apply for_each_spec_chain.
  - apply bind_cong; [|intros _ h7; apply for_each_spec_chain].
    step (get_b_again _ _ _ _ Gb).
    apply bind_cong; [apply for_each_spec_chain|done].
Qed.

Lemma slot_loop_spec_stages call all_slots : ∀ n idx node h,
  n = length all_slots - idx →
  slot_loop call all_slots idx node h = spec_stages call (drop idx all_slots) node h.
Proof.
  induction n as [|n IH]; intros idx node h Hn; rewrite slot_loop_step.
  - rewrite decide_False by lia. by rewrite drop_ge by lia.
  - rewrite decide_True by lia.
    destruct (lookup_lt_is_Some_2 all_slots idx ltac:(lia)) as [s E].
    rewrite (drop_S _ _ _ E). cbn [spec_stages].
    rewrite (slot_pass_spec_stage _ _ _ _ _ _ E).
    unfold mbind, M_bind.
    destruct (spec_stage call (members_of s) node h) as [node' h'| | |]; try done.
    apply IH. lia.
Qed.

Lemma spec_stages_app call slots1 slots2 : ∀ node h,
  spec_stages call (slots1 ++ slots2) node h
  = (spec_stages call slots1 node ≫= spec_stages call slots2) h.
Proof.
  induction slots1 as [|s slots1 IH]; intros node h; [done|].
  cbn [app spec_stages]. rewrite bind_assoc. apply bind_ext. intros node' h'. apply IH.
Qed.

(** C1. The [process] method of a chain, with its loop over a slot index
    and its lookup of the current slot, computes what the specification
    describes: after the marking of the root, the slots are taken in
    order, one stage each.  In a stage operand A, then operand B unless it
    is [None], is replaced by the result of running it through the
    [process] method of every member in sequence, each member receiving the
    result of the one before; then the node itself is run through the
    [do_process] method of every member in sequence.  On a member that is a
    plain processor these methods are the recursive [process] and the
    dispatch [do_process].  The loop over the slots [slots1 ++ slots2] is
    the loop over [slots1] followed by the loop over [slots2], which starts
    with the node and in the store that the earlier slots left: the
    annotations set there are what the later slots read. *)
Theorem chain_runs_slots_in_order (fuel : nat) (all_slots : list slot) (node : value) (h : heap) :
  ParseTreeMultiProcessor_process fuel all_slots node h
  = spec_multi_process (invoke fuel) all_slots node h
  ∧ (∀ p v, invoke (S fuel) (Single p) M_process v h = process fuel p v h)
  ∧ (∀ p v, invoke (S fuel) (Single p) M_do_process v h = do_process p v h)
  ∧ (∀ slots1 slots2,
       slot_loop (invoke fuel) (slots1 ++ slots2) 0 node h
       = ((slot_loop (invoke fuel) slots1 0 node : M value)
          ≫= λ node', slot_loop (invoke fuel) slots2 0 node') h).
Proof.
  split; [|split; [done|split; [done|]]].
  - unfold ParseTreeMultiProcessor_process, multi_process, spec_multi_process.
    apply bind_ext. intros [| | | | | |l] h1; try done.
    apply bind_ext. intros r h2. destruct (is_None r); [|done].
    apply bind_ext. intros _ h3. apply bind_ext. intros _ h4.
    by rewrite (slot_loop_spec_stages _ _ _ 0 _ _ eq_refl).
  - intros slots1 slots2.
    rewrite (slot_loop_spec_stages _ _ _ 0 _ _ eq_refl), drop_0.
    rewrite spec_stages_app. apply bind_cong.
    + by rewrite (slot_loop_spec_stages _ _ _ 0 _ _ eq_refl), drop_0.
    + intros node' h'. by rewrite (slot_loop_spec_stages _ _ _ 0 _ _ eq_refl), drop_0.
Qed.

(** The chain [ParseTreeMultiProcessor(P1, [P2, P3])] on
    [("op", ("neg", 1), 2)]: on both nodes [P2] ran before [P3], and both
    saw the annotation [seen1] that [P1] had set in the first slot. *)
Lemma chain_example_seen_order :
  ParseTreeMultiProcessor_process 4 [One (Single P1); Many [Single P2; Single P3]]
    (VTuple [VStr "op"; VTuple [VStr "neg"; VInt 1]; VInt 2]) []
  = Ok (VRef 0)
      [ {| _op := VStr "op"; _a := VRef 1; _b := VInt 2;
           _x := XExtras (list_to_map
                   [("is_root", VBool true); ("seen1", VBool true);
                    ("seenOrder", VList [VStr "P2"; VStr "P3"]);
                    ("saw1", VList [VBool true; VBool true])]) |};
        {| _op := VStr "neg"; _a := VInt 1; _b := VNone;
           _x := XExtras (list_to_map
                   [("is_root", VBool false); ("seen1", VBool true);
                    ("seenOrder", VList [VStr "P2"; VStr "P3"]);
                    ("saw1", VList [VBool true; VBool true])]) |} ].
Proof. vm_compute. reflexivity. Qed.

(** * Further properties *)

(** ** The annotation dictionary *)





(** ** The constructor of a node *)

Lemma set_positional_init (items : list value) :
  set_positional items PtNode_blank = Some (PtNode_init items).
Proof.
  destruct items as [|v0 [|v1 [|v2 [|v3 items]]]]; reflexivity.
Qed.

(** X3. Positional arguments of the constructor.  Two or more arguments
    build the same node as the one tuple, or the one list, of them; only
    the first four count; and a single argument is never stored as the
    operator but taken apart: a string gives its characters as operator and
    operands, and [None], a boolean, an integer or a node raise
    [TypeError]. *)
Theorem constructor_positional_arguments (args : list value) :
  PtNode_call [VTuple args] [] = Constructed (PtNode_init args)
  ∧ PtNode_call [VList args] [] = Constructed (PtNode_init args)
  ∧ (length args ≠ 1 → PtNode_call args [] = Constructed (PtNode_init args))
  ∧ PtNode_init args = PtNode_init (take 4 args)
  ∧ (∀ s, PtNode_call [VStr s] []
          = Constructed (PtNode_init ((λ c, VStr (String c EmptyString))
                                        <$> String.list_ascii_of_string s)))
  ∧ (∀ v kwargs, PtNode_call [v] kwargs = RaisesTypeError
                 ↔ match v with
                   | VNone | VBool _ | VInt _ | VRef _ => True
                   | VStr _ | VList _ | VTuple _ => False
                   end).
Proof.
  assert (∀ items, match set_positional items PtNode_blank ≫= set_keywords [] with
                   | Some n => Constructed n
                   | None => NotModelled
                   end = Constructed (PtNode_init items)) as E.
  { intros items. by rewrite set_positional_init. }
  repeat split.
  - apply E.
  - apply E.
  - intros L. destruct args as [|v0 [|v1 args]]; [apply E|done|apply E].
  - by destruct args as [|v0 [|v1 [|v2 [|v3 args]]]].
  - intros s. apply E.
  - unfold PtNode_call. destruct v; cbn [py_items]; try done;
      by destruct (_ ≫= set_keywords kwargs).
  - by destruct v.
Qed.

Lemma constructor_positional_arguments_witness :
  PtNode_call [VStr "add"; VInt 1; VInt 2] [] = Constructed (PtNode_init [VStr "add"; VInt 1; VInt 2])
  ∧ PtNode_call [VInt 7] [] = RaisesTypeError.
Proof.
  destruct (constructor_positional_arguments [VStr "add"; VInt 1; VInt 2])
    as (_ & _ & E & _ & _ & T).
  split; [apply E; by compute|]. by apply T.
Defined.

Lemma set_field_comm (n : PtNode) (k1 k2 : string) (v1 v2 : value) :
  k1 ≠ k2 →
  set_field n k1 v1 ≫= (λ n, set_field n k2 v2)
  = set_field n k2 v2 ≫= (λ n, set_field n k1 v1).
Proof.
  intros Hk. unfold set_field.
  repeat case_decide; subst; try done; cbn;
    repeat case_match; cbn; repeat case_decide; try done; congruence.
Qed.

Lemma set_keywords_foldl_None (kwargs : list (string * value)) :
  foldl (λ (n : option PtNode) (kv : string * value), n ← n; set_field n kv.1 kv.2)
    None kwargs = None.
Proof. induction kwargs as [|kv kwargs IH]; [done|apply IH]. Qed.

Lemma set_keywords_cons (k : string) (v : value) (kwargs : list (string * value))
    (n : PtNode) :
  set_keywords ((k, v) :: kwargs) n = set_field n k v ≫= set_keywords kwargs.
Proof.
  unfold set_keywords. cbn [foldl]. cbn.
  destruct (set_field n k v) as [n'|]; [done|apply set_keywords_foldl_None].
Qed.

Lemma set_keywords_permutation (kwargs kwargs' : list (string * value)) (n : PtNode) :
  kwargs ≡ₚ kwargs' → NoDup kwargs.*1 → set_keywords kwargs n = set_keywords kwargs' n.
Proof.
  intros P. revert n. induction P as [|[k v] l l' P IH|[k1 v1] [k2 v2] l|l l' l'' P1 IH1 P2 IH2];
    intros n ND.
  - done.
  - rewrite !set_keywords_cons. apply NoDup_cons in ND as [_ ND].
    destruct (set_field n k v); [by apply IH|done].
  - rewrite !set_keywords_cons.
    assert (k2 ≠ k1) as Hk.
    { apply NoDup_cons in ND as [Hk _]. intros ->. apply Hk. left. }
    pose proof (set_field_comm n k2 k1 v2 v1 Hk) as C.
    destruct (set_field n k1 v1) as [n1|] eqn:E1, (set_field n k2 v2) as [n2|] eqn:E2;
      cbn -[set_keywords] in *; rewrite ?set_keywords_cons.
    + by rewrite C.
    + by rewrite <- C.
    + by rewrite C.
    + done.
  - rewrite IH1 by done. apply IH2. by rewrite <- P1.
Qed.

(** X4. Keyword arguments of the constructor are set one by one in the
    order in which the dictionary of the call happens to enumerate them; as
    no name occurs twice in it, that order has no effect on the outcome of
    the call. *)
Theorem constructor_keyword_order (args : list value) (kwargs kwargs' : list (string * value)) :
  NoDup kwargs.*1 → kwargs ≡ₚ kwargs' →
  PtNode_call args kwargs = PtNode_call args kwargs'.
Proof.
  intros ND P. unfold PtNode_call.
  destruct (match args with [] => Some [] | [v] => py_items v | _ => Some args end)
    as [items|]; [|done].
  destruct (set_positional items PtNode_blank) as [n|]; [|done]. cbn.
  by rewrite (set_keywords_permutation kwargs kwargs' n P ND).
Qed.

Lemma constructor_keyword_order_witness :
  PtNode_call [VStr "add"] [("a", VInt 1); ("b", VInt 2)]
  = PtNode_call [VStr "add"] [("b", VInt 2); ("a", VInt 1)].
Proof.
  apply constructor_keyword_order.
  - compute_done.
  - apply perm_swap.
Defined.

(** X5. A keyword argument named [op], [a], [b] or [x] wins over the
    positional argument in the same place, and the attributes that no
    keyword names keep what the positional arguments gave them; an [x]
    given this way replaces the annotation dictionary by the value as it
    is.  Keywords of other names, when they do not start with an
    underscore, change none of the four. *)
Theorem constructor_keywords_override (args : list value) (n : PtNode)
    (kwargs : list (string * value)) :
  PtNode_call args [] = Constructed n →
  NoDup kwargs.*1 → Forall (λ k, String.prefix "_" k = false) kwargs.*1 →
  let kw := list_to_map kwargs : gmap string value in
  PtNode_call args kwargs
  = Constructed {| _op := default (_op n) (kw !! "op");
                   _a := default (_a n) (kw !! "a");
                   _b := default (_b n) (kw !! "b");
                   _x := from_option XOther (_x n) (kw !! "x") |}.
Proof.
  intros C ND OK kw. subst kw. unfold PtNode_call in *.
  destruct (match args with [] => Some [] | [v] => py_items v | _ => Some args end)
    as [items|]; [|done].
  rewrite set_positional_init in *. generalize dependent (PtNode_init items).
  clear args items. intros n0 C. cbn in C. injection C as ->. cbn -[set_keywords].
  enough (set_keywords kwargs n
          = Some {| _op := default (_op n) ((list_to_map kwargs : gmap string value) !! "op");
                    _a := default (_a n) ((list_to_map kwargs : gmap string value) !! "a");
                    _b := default (_b n) ((list_to_map kwargs : gmap string value) !! "b");
                    _x := from_option XOther (_x n)
                            ((list_to_map kwargs : gmap string value) !! "x") |}) as -> by done.
  revert n. induction kwargs as [|[k v] kwargs IH]; intros n.
  { by destruct n. }
  apply NoDup_cons in ND as [Hk ND]. apply Forall_cons in OK as [Pk OK].
  assert ((list_to_map kwargs : gmap string value) !! k = None) as Nk
    by (by apply not_elem_of_list_to_map_1).
  rewrite set_keywords_cons. cbn [list_to_map foldr]. cbn in Pk.
  unfold set_field. rewrite Pk.
  repeat case_decide; subst; cbn; rewrite IH by done; cbn;
    rewrite ?lookup_insert_eq, ?Nk; rewrite ?lookup_insert_ne by done; cbn; try done.
Qed.

Lemma constructor_keywords_override_witness :
  PtNode_call [VStr "add"; VInt 1; VInt 2] [("a", VInt 5)]
  = Constructed (PtNode_init [VStr "add"; VInt 5; VInt 2]).
Proof.
  refine (eq_trans (constructor_keywords_override [VStr "add"; VInt 1; VInt 2] _
                      [("a", VInt 5)] eq_refl _ _) _).
  - compute_done.
  - by repeat constructor.
  - reflexivity.
Defined.

(** ** Assigning to the properties of a node *)

(** X6. Assigning to an operand and reading it back.  The assignment
    changes that one attribute of that one node.  A value that is not a
    tuple is read back as it is, with no effect on the store; a tuple is
    converted by the next read into a new node at the first free location,
    whatever the operand held before.  The other operand and the operator
    read as before.  This holds for [a] and, with the roles exchanged, for
    [b]. *)
Theorem operand_assign_then_read (h : heap) (l : loc) (n : PtNode) (v : value) :
  h !! l = Some n →
  (∃ h1, set_a l v h = Ok tt h1
       ∧ length h1 = length h ∧ (∀ k, k ≠ l → h1 !! k = h !! k)
       ∧ (is_tuple v = false → get_a l h1 = Ok v h1)
       ∧ (∀ args, v = VTuple args →
            ∃ h2, get_a l h1 = Ok (VRef (length h)) h2
                ∧ h2 !! length h = Some (PtNode_init args)
                ∧ get_a l h2 = Ok (VRef (length h)) h2)
       ∧ get_op l h1 = Ok (_op n) h1
       ∧ (is_tuple (_b n) = false → get_b l h1 = Ok (_b n) h1))
  ∧ (∃ h1, set_b l v h = Ok tt h1
       ∧ length h1 = length h ∧ (∀ k, k ≠ l → h1 !! k = h !! k)
       ∧ (is_tuple v = false → get_b l h1 = Ok v h1)
       ∧ (∀ args, v = VTuple args →
            ∃ h2, get_b l h1 = Ok (VRef (length h)) h2
                ∧ h2 !! length h = Some (PtNode_init args)
                ∧ get_b l h2 = Ok (VRef (length h)) h2)
       ∧ get_op l h1 = Ok (_op n) h1
       ∧ (is_tuple (_a n) = false → get_a l h1 = Ok (_a n) h1)).
Proof.
  intros E. pose proof (lookup_lt_Some _ _ _ E) as Hl. split.
  - set (n1 := with_a n v).
    assert (<[l := n1]> h !! l = Some n1) as E1 by (by apply list_lookup_insert_eq).
    assert (length (<[l := n1]> h) = length h) as L1 by apply length_insert.
    exists (<[l := n1]> h). split; [by apply set_a_Ok|]. split; [done|].
    split; [intros k Hk; by apply list_lookup_insert_ne|].
    split; [intros T; by apply (get_a_pure _ _ n1)|].
    split; [|split; [by apply (get_op_Ok _ _ n1)|intros T; by apply (get_b_pure _ _ n1)]].
    intros args ->. eexists. split; [|split].
    + rewrite <- L1. by apply (get_a_tuple _ _ n1).
    + rewrite <- L1 at 1. apply lookup_new. by rewrite L1.
    + rewrite <- L1.
      apply (get_a_pure _ _ (with_a n1 (VRef (length (<[l := n1]> h))))); [|done].
      apply lookup_linked. by rewrite L1.
  - set (n1 := with_b n v).
    assert (<[l := n1]> h !! l = Some n1) as E1 by (by apply list_lookup_insert_eq).
    assert (length (<[l := n1]> h) = length h) as L1 by apply length_insert.
    exists (<[l := n1]> h). split; [by apply set_b_Ok|]. split; [done|].
    split; [intros k Hk; by apply list_lookup_insert_ne|].
    split; [intros T; by apply (get_b_pure _ _ n1)|].
    split; [|split; [by apply (get_op_Ok _ _ n1)|intros T; by apply (get_a_pure _ _ n1)]].
    intros args ->. eexists. split; [|split].
    + rewrite <- L1. by apply (get_b_tuple _ _ n1).
    + rewrite <- L1 at 1. apply lookup_new. by rewrite L1.
    + rewrite <- L1.
      apply (get_b_pure _ _ (with_b n1 (VRef (length (<[l := n1]> h))))); [|done].
      apply lookup_linked. by rewrite L1.
Qed.

Lemma operand_assign_then_read_witness :
  ∃ h1, set_a 0 (VInt 5) [PtNode_init [VStr "neg"; VInt 1]] = Ok tt h1
      ∧ get_a 0 h1 = Ok (VInt 5) h1.
Proof.
  destruct (operand_assign_then_read [PtNode_init [VStr "neg"; VInt 1]] 0 _ (VInt 5) eq_refl)
    as [(h1 & S & _ & _ & G & _) _].
  exists h1. split; [done|]. by apply G.
Defined.

(** X7. Assigning to the operator.  The assignment changes the operator of
    that one node and nothing else, and from then on the node is dispatched
    by the new operator: [do_process] calls the handler that the processor
    has under the name of the value assigned. *)
Theorem operator_assign_then_dispatch (h : heap) (l : loc) (n : PtNode) (v : value) :
  h !! l = Some n →
  ∃ h1, set_op l v h = Ok tt h1
      ∧ get_op l h1 = Ok v h1
      ∧ (∀ k, k ≠ l → h1 !! k = h !! k)
      ∧ (∃ n1, h1 !! l = Some n1 ∧ _a n1 = _a n ∧ _b n1 = _b n ∧ _x n1 = _x n)
      ∧ (∀ p s f, py_str v = Some s → getattr p ("process_" +:+ s) = Some f →
           do_process p (VRef l) h1 = f (VRef l) h1).
Proof.
  intros E. pose proof (lookup_lt_Some _ _ _ E) as Hl.
  assert (<[l := with_op n v]> h !! l = Some (with_op n v)) as E1
    by (by apply list_lookup_insert_eq).
  exists (<[l := with_op n v]> h). split.
  { unfold set_op. step (load_Ok _ _ _ E). by apply store_Ok with n. }
  split; [by apply (get_op_Ok _ _ (with_op n v))|].
  split; [intros k Hk; by apply list_lookup_insert_ne|].
  split; [by exists (with_op n v)|].
  intros p s f S G. unfold do_process. step (get_op_Ok _ _ _ E1). cbn [with_op _op].
  rewrite S. unfold hasattr, call_method. rewrite G.
  by rewrite bool_decide_eq_true_2.
Qed.

Lemma operator_assign_then_dispatch_witness :
  ∃ h1, set_op 0 (VStr "add") [PtNode_init [VStr "plus"; VInt 1; VInt 2]] = Ok tt h1
      ∧ get_op 0 h1 = Ok (VStr "add") h1.
Proof.
  destruct (operator_assign_then_dispatch [PtNode_init [VStr "plus"; VInt 1; VInt 2]] 0 _
              (VStr "add") eq_refl) as (h1 & S & G & _).
  by exists h1.
Defined.

(** ** The operands of a node *)

(** X8. The property [operands] gives one operand when the second is
    [None] and two otherwise, and no operand it gives is a tuple.  It reads
    the second operand first, so when both are stored as tuples the node of
    the second is created before the node of the first.  Reading the property
    again gives the same operands and leaves the store as it is. *)
Theorem operands_are_converted (h : heap) (l : loc) (n : PtNode) :
  h !! l = Some n →
  let b := if is_tuple (_b n) then VRef (length h) else _b n in
  let a := if is_tuple (_a n)
           then VRef (if is_tuple (_b n) then S (length h) else length h)
           else _a n in
  let abs := if is_None (_b n) then [a] else [a; b] in
  ∃ h', operands l h = Ok abs h'
      ∧ Forall (λ ab, is_tuple ab = false) abs
      ∧ grows l h h'
      ∧ operands l h' = Ok abs h'.
Proof.
  intros E b a abs. subst b a abs. pose proof (lookup_lt_Some _ _ _ E) as Hl.
  assert (∀ (h1 : heap) n1 va vb,
            h1 !! l = Some n1 → _a n1 = va → _b n1 = vb →
            is_tuple va = false → is_tuple vb = false →
            operands l h1 = Ok (if is_None vb then [va] else [va; vb]) h1) as Pure.
  { intros h1 n1 va vb E1 <- <- Ta Tb. unfold operands.
    step (get_b_pure _ _ _ E1 Tb). destruct (is_None (_b n1)).
    - by step (get_a_pure _ _ _ E1 Ta).
    - step (get_a_pure _ _ _ E1 Ta). by step (get_b_pure _ _ _ E1 Tb). }
  destruct (is_tuple (_b n)) eqn:Tb.
  - destruct (_b n) as [| | | | |bargs|] eqn:Eb; try done. cbn [is_None].
    set (n1 := with_b n (VRef (length h))).
    set (h1 := <[l := n1]> (h ++ [PtNode_init bargs])).
    assert (h1 !! l = Some n1) as E1 by (by apply lookup_linked).
    assert (length h1 = S (length h)) as L1
      by (unfold h1; rewrite length_insert, length_app; cbn; lia).
    assert (grows l h h1) as G1.
    { split; [lia|]. intros k Hk Hkl. unfold h1.
      rewrite list_lookup_insert_ne by done. by rewrite lookup_app_l. }
    destruct (is_tuple (_a n)) eqn:Ta.
    + destruct (_a n) as [| | | | |aargs|] eqn:Ea; try done.
      set (n2 := with_a n1 (VRef (length h1))).
      set (h2 := <[l := n2]> (h1 ++ [PtNode_init aargs])).
      assert (h2 !! l = Some n2) as E2 by (apply lookup_linked; lia).
      exists h2. rewrite <- L1. split; [|split; [|split]].
      * unfold operands. step (get_b_tuple _ _ _ _ E Eb). fold n1 h1. cbn [is_None].
        assert (_a n1 = VTuple aargs) as Ea1 by done.
        step (get_a_tuple _ _ _ _ E1 Ea1). fold n2 h2.
        by step (get_b_pure _ _ _ E2 eq_refl).
      * by repeat constructor.
      * apply grows_trans with h1; [done|]. split.
        { unfold h2. rewrite length_insert, length_app. lia. }
        intros k Hk Hkl. unfold h2.
        rewrite list_lookup_insert_ne by done. by rewrite lookup_app_l.
      * by apply (Pure h2 n2 (VRef (length h1)) (VRef (length h))).
    + exists h1. split; [|split; [|split]].
      * unfold operands. step (get_b_tuple _ _ _ _ E Eb). fold n1 h1. cbn [is_None].
        assert (is_tuple (_a n1) = false) as Ta1 by done.
        step (get_a_pure _ _ _ E1 Ta1).
        by step (get_b_pure _ _ _ E1 eq_refl).
      * by repeat constructor.
      * done.
      * by apply (Pure h1 n1 (_a n) (VRef (length h))).
  - destruct (is_tuple (_a n)) eqn:Ta.
    + destruct (_a n) as [| | | | |aargs|] eqn:Ea; try done.
      set (n1 := with_a n (VRef (length h))).
      set (h1 := <[l := n1]> (h ++ [PtNode_init aargs])).
      assert (h1 !! l = Some n1) as E1 by (by apply lookup_linked).
      assert (is_tuple (_b n1) = false) as Tb1 by done.
      exists h1. split; [|split; [|split]].
      * unfold operands. step (get_b_pure _ _ _ E Tb). destruct (is_None (_b n)).
        { by step (get_a_tuple _ _ _ _ E Ea). }
        step (get_a_tuple _ _ _ _ E Ea). fold n1 h1.
        by step (get_b_pure _ _ _ E1 Tb1).
      * destruct (is_None (_b n)); by repeat constructor.
      * split; [unfold h1; rewrite length_insert, length_app; lia|].
        intros k Hk Hkl. unfold h1.
        rewrite list_lookup_insert_ne by done. by rewrite lookup_app_l.
      * by apply (Pure h1 n1 (VRef (length h)) (_b n)).
    + exists h. split; [by apply (Pure h n)|].
      split; [destruct (is_None (_b n)); by repeat constructor|].
      split; [apply grows_refl|by apply (Pure h n)].
Qed.

Lemma operands_are_converted_witness :
  ∃ h', operands 0 [PtNode_init [VStr "add"; VTuple [VStr "lit"; VInt 1];
                                 VTuple [VStr "lit"; VInt 2]]]
        = Ok [VRef 2; VRef 1] h'.
Proof.
  destruct (operands_are_converted
              [PtNode_init [VStr "add"; VTuple [VStr "lit"; VInt 1];
                            VTuple [VStr "lit"; VInt 2]]] 0 _ eq_refl) as (h' & O & _).
  by exists h'.
Defined.

(** ** Converted trees, read back and traversed again *)

Lemma mat_is_None lo hi h v t : mat lo hi h v t → is_None v = is_None (encode t).
Proof.
  destruct 1 as [v P|l n t op a b K _ _ _ _ _]; [done|].
  by destruct t.
Qed.

Lemma to_tuple_mat (fuel : nat) : ∀ lo hi t v h,
  mat lo hi h v t → depth t ≤ fuel →
  (match v with VRef l' => to_tuple fuel l' | _ => mret v end) h = Ok (canon t) h.
Proof.
  induction fuel as [|fuel IH]; intros lo hi t v h Hm D;
    destruct Hm as [v P|l n t op a b K Hl E Eop Ma Mb];
    try (apply is_primitive_spec in P as [P1 P2]; by destruct v).
  - rewrite (kids_depth _ _ _ _ K) in D. lia.
  - rewrite (kids_depth _ _ _ _ K) in D.
    cbn [to_tuple]. step (get_op_Ok _ _ _ E). unfold operands.
    step (get_b_pure _ _ _ E (mat_not_tuple _ _ _ _ _ Mb)).
    rewrite (mat_is_None _ _ _ _ _ Mb), (canon_kids _ _ _ _ K), Eop.
    destruct (is_None (encode b)).
    + step (get_a_pure _ _ _ E (mat_not_tuple _ _ _ _ _ Ma)). cbn [mapM].
      by step (IH _ _ _ _ _ Ma ltac:(lia)).
    + step (get_a_pure _ _ _ E (mat_not_tuple _ _ _ _ _ Ma)).
      step (get_b_pure _ _ _ E (mat_not_tuple _ _ _ _ _ Mb)). cbn [mapM].
      step (IH _ _ _ _ _ Ma ltac:(lia)).
      by step (IH _ _ _ _ _ Mb ltac:(lia)).
Qed.

(** X9. [to_tuple] on a tree that is fully converted (every operand at
    every level is a node or a primitive) gives the tuple of the tree, with a
    second operand [None] left out, and changes nothing in the store: no
    node is created and none is written. *)
Theorem to_tuple_reads_converted_tree (lo hi : nat) (t : raw) (l : loc) (h : heap)
    (fuel : nat) :
  mat lo hi h (VRef l) t → depth t ≤ fuel →
  to_tuple fuel l h = Ok (canon t) h.
Proof. intros Hm D. by apply (to_tuple_mat fuel lo hi t (VRef l) h). Qed.

Lemma to_tuple_reads_converted_tree_witness :
  to_tuple 1 0 [PtNode_init [VStr "neg"; VInt 1]]
  = Ok (VTuple [VStr "neg"; VInt 1]) [PtNode_init [VStr "neg"; VInt 1]].
Proof.
  apply (to_tuple_reads_converted_tree 0 1 (RUn (VStr "neg") (RLeaf (VInt 1)))).
  - eapply mat_node; [reflexivity|lia|reflexivity|reflexivity|by apply mat_leaf..].
  - cbn. lia.
Defined.

(** X10. A processor that lets every node and every primitive through as it
    is, such as [ParseTreeProcessor()], turns the tuple of a tree into the
    same tree of nodes: [process] returns a new root, leaves the nodes that
    were there before as they are, [to_tuple] of the root gives the tuple
    back (a second operand [None] left out) without changing the store, and
    a second [process] on the root returns it again and changes nothing. *)
Theorem identity_traversal (p : Processor) (t : raw) (args : list value) (fuel : nat)
    (h : heap) :
  declines p → wf_raw t = true → encode t = VTuple args → depth t < fuel →
  ∃ h', process fuel p (encode t) h = Ok (VRef (length h)) h'
      ∧ (∀ k, k < length h → h' !! k = h !! k)
      ∧ to_tuple fuel (length h) h' = Ok (canon t) h'
      ∧ process fuel p (VRef (length h)) h' = Ok (VRef (length h)) h'.
Proof.
  intros [prim_id pass] W Et D.
  assert (∀ l h n, h !! l = Some n → (λ _ : value, true) (_op n) = true →
                   do_process p (VRef l) h = Ok (VRef l) h) as pass'
    by (intros l0 h0 n0 E0 _; by apply (pass l0 h0 n0)).
  destruct (process_fresh_ok p (λ _, true) prim_id pass' fuel t (VRef (length h))
              (h ++ [PtNode_init args]) W (all_ok_true t) (fresh_at_alloc h t args W Et) D)
    as (h' & P & X & _ & G & R).
  destruct (G _ eq_refl) as [L Gk]. rewrite length_app in L, Gk. cbn in L.
  assert (mat (length h) (length h') h' (VRef (length h)) t) as Hm.
  { apply (rooted_mat (length (h ++ [PtNode_init args])) (length h') (length h)); [done|done|..].
    - rewrite length_app. lia.
    - intros l0 [= <-]. lia. }
  exists h'. split; [by rewrite Et, process_tuple|]. split; [|split].
  - intros k Hk. rewrite Gk by lia. by rewrite lookup_app_l.
  - apply (to_tuple_mat fuel _ _ _ (VRef (length h)) _ Hm). lia.
  - by apply (process_mat_id p (λ _, true) prim_id pass' fuel _ _ t _ _ Hm (all_ok_true t)).
Qed.

Lemma identity_traversal_witness :
  ∃ h', process 3 plain xyz [] = Ok (VRef 0) h'
      ∧ to_tuple 3 0 h' = Ok xyz h'
      ∧ process 3 plain (VRef 0) h' = Ok (VRef 0) h'.
Proof.
  destruct (identity_traversal plain
              (RBin (VStr "x") (RUn (VStr "y") (RLeaf (VInt 1))) (RUn (VStr "z") (RLeaf (VInt 2))))
              _ 3 [] plain_declines eq_refl eq_refl ltac:(cbn; lia))
    as (h' & P & _ & T & P').
  by exists h'.
Defined.

(** ** Dispatch with an override of [process_unrecognised] *)

(** X11. A processor that defines [process_unrecognised] itself catches
    every node for which it has no handler named after the operator,
    whether it is strict or not: [do_process] hands the node to the override.
    The one operator that does not reach it is ["primitive"], for which the
    lookup finds [process_primitive]. *)
Theorem unrecognised_override_catches (p : Processor) (f : handler) (l : loc) (h : heap)
    (n : PtNode) :
  user_handler p "process_unrecognised" = Some f →
  h !! l = Some n → handler_for p (_op n) = None →
  do_process p (VRef l) h
  = if bool_decide (py_str (_op n) = Some "primitive") then process_primitive p (VRef l) h
    else f (VRef l) h.
Proof.
  intros U E H.
  assert (process_unrecognised p (VRef l) h = f (VRef l) h) as PU.
  { unfold process_unrecognised, call_method. by rewrite getattr_cases, U. }
  unfold do_process. step (get_op_Ok _ _ _ E). unfold handler_for in H.
  destruct (py_str (_op n)) as [s|] eqn:S; cbn in H; [|by rewrite bool_decide_eq_false_2].
  unfold hasattr, call_method. rewrite getattr_cases, H. unfold base_method.
  destruct (decide (s = "primitive")) as [->|Hs].
  - change ("process_" +:+ "primitive") with "process_primitive" in *.
    rewrite (bool_decide_eq_true_2 (Some "primitive" = Some "primitive")) by done.
    unfold process_primitive, call_method. rewrite getattr_cases, H.
    by rewrite decide_True by done.
  - rewrite (bool_decide_eq_false_2 (Some s = Some "primitive")) by congruence.
    rewrite decide_False by (intros Hp; apply Hs; by apply prefix_inj).
    rewrite decide_False; [by rewrite bool_decide_eq_false_2 by apply is_Some_None|].
    intros Hp. apply prefix_inj in Hp. subst s.
    change ("process_" +:+ "unrecognised") with "process_unrecognised" in H. congruence.
Qed.

(** A strict processor whose [process_unrecognised] tags the node. *)
Lemma unrecognised_override_catches_witness :
  let p := ParseTreeProcessor_new
             [("process_unrecognised", {| impl := tag_seen1; delegate_of := None |})] true in
  let h := [PtNode_init [VStr "foo"; VInt 1]] in
  do_process p (VRef 0) h = tag_seen1 (VRef 0) h.
Proof.
  intros p h.
  exact (unrecognised_override_catches p tag_seen1 0 h _ eq_refl eq_refl eq_refl).
Defined.

(** ** Names that no decorator lists *)

Lemma foldl_bind_delegates_strict (cd : class_dict) : ∀ inst,
  _strict (foldl bind_delegates inst cd) = _strict inst.
Proof.
  induction cd as [|kv cd IH]; intros inst; [done|].
  cbn [foldl]. rewrite IH. unfold bind_delegates.
  destruct (delegate_of kv.2) as [ds|]; [|done].
  generalize inst. clear. induction ds as [|d ds IH]; intros inst; [done|].
  cbn [foldl]. rewrite IH. by destruct (getattr inst kv.1).
Qed.

(** X12. Creating a processor binds the names listed by the decorators and
    nothing else: a name that no [delegate_of] of the class lists resolves
    on the new instance as the class defines it, and otherwise as
    [ParseTreeProcessor] does; the flag [strict] is the one given. *)
Theorem delegation_leaves_other_names (cls : class_dict) (strict : bool) (name : string) :
  (∀ kv ds, kv ∈ cls → delegate_of kv.2 = Some ds → name ∉ ds) →
  getattr (ParseTreeProcessor_new cls strict) name
  = match lookup_method name cls with
    | Some m => Some (impl m)
    | None => base_method strict name
    end
  ∧ _strict (ParseTreeProcessor_new cls strict) = strict.
Proof.
  intros H. unfold getattr, ParseTreeProcessor_new.
  rewrite (foldl_bind_delegates_other cls _ name H), foldl_bind_delegates_class,
    foldl_bind_delegates_strict.
  cbn. by rewrite lookup_empty.
Qed.

Lemma delegation_leaves_other_names_witness :
  getattr (ParseTreeProcessor_new ArithProcessor true) "process_mul" = None.
Proof.
  refine (eq_trans (proj1 (delegation_leaves_other_names ArithProcessor true "process_mul" _)) _).
  - intros kv ds Hin Hd. apply elem_of_cons in Hin as [->|Hin]; [done|].
    apply list_elem_of_singleton in Hin as ->. injection Hd as <-. compute_done.
  - reflexivity.
Defined.

(** ** The shape of a slot *)

Lemma spec_stages_members call : ∀ slots slots' node h,
  members_of <$> slots = members_of <$> slots' →
  spec_stages call slots node h = spec_stages call slots' node h.
Proof.
  induction slots as [|s slots IH]; intros [|s' slots'] node h E; try done.
  rewrite !fmap_cons in E. injection E as Es E.
  cbn [spec_stages]. rewrite Es. apply bind_ext. intros node' h'. by apply IH.
Qed.

(** X13. Only the members of a slot and their order count, not the way
    the slot is given: two chains whose slots list the same processors run
    the same computation.  In particular a processor given alone is the same
    slot as the list of that one processor. *)
Theorem slot_shape_is_irrelevant (call : processor → method_name → value → M value)
    (slots slots' : list slot) (node : value) (h : heap) :
  members_of <$> slots = members_of <$> slots' →
  multi_process call slots node h = multi_process call slots' node h.
Proof.
  intros E. unfold multi_process.
  apply bind_ext. intros [| | | | | |l] h1; try done.
  apply bind_ext. intros r h2. destruct (is_None r); [|done].
  apply bind_ext. intros _ h3. apply bind_ext. intros _ h4.
  rewrite !(slot_loop_spec_stages _ _ _ 0 _ _ eq_refl), !drop_0.
  by apply spec_stages_members.
Qed.

Lemma slot_shape_is_irrelevant_witness :
  ParseTreeMultiProcessor_process 3 [One (Single plain)] xyz []
  = ParseTreeMultiProcessor_process 3 [Many [Single plain]] xyz [].
Proof.
  exact (slot_shape_is_irrelevant (invoke 3) [One (Single plain)] [Many [Single plain]]
           xyz [] eq_refl).
Defined.

(** ** What a chain hands from slot to slot *)

(** X14. The value that the members of a slot return for the root goes to
    the next slot as it is.  When it is not a node, the chain raises
    [AttributeError] if a slot remains, and returns that value if the slot
    was the last one: only the last slot of a chain may turn the root into
    something other than a node. *)
Theorem chain_needs_node_for_next_slot (call : processor → method_name → value → M value)
    (all_slots : list slot) (idx : nat) (node v : value) (h h' : heap) :
  idx < length all_slots →
  slot_pass call all_slots idx node h = Ok v h' → is_node v = false →
  slot_loop call all_slots idx node h
  = if decide (S idx < length all_slots) then Raise AttributeError h' else Ok v h'.
Proof.
  intros Hi P N. rewrite slot_loop_step, decide_True, P by done.
  rewrite slot_loop_step. destruct (decide (S idx < length all_slots)); [|done].
  by destruct v.
Qed.

(** A handler that replaces the node by the integer [7], in the first of
    two slots. *)
Lemma chain_needs_node_for_next_slot_witness :
  let seven := ParseTreeProcessor_new
                 [("process_unrecognised", {| impl := λ _, mret (VInt 7); delegate_of := None |})]
                 false in
  let h := [PtNode_init [VStr "neg"; VInt 1]] in
  slot_loop (invoke 3) [One (Single seven); One (Single plain)] 0 (VRef 0) h
  = Raise AttributeError h.
Proof.
  intros seven h.
  exact (chain_needs_node_for_next_slot (invoke 3) [One (Single seven); One (Single plain)]
           0 (VRef 0) (VInt 7) h h ltac:(cbn; lia) eq_refl eq_refl).
Defined.

(** X15. A member of a chain that raises stops the chain with its
    exception: when the first processor of the first slot has handlers that
    return their node, does not override [process_unrecognised], and refuses
    an operator in operand A (it is strict and has no handler for it),
    [process] of the chain raises the [PtNodeNotRecognised] of that
    processor, carrying a node with a refused operator. *)
Theorem member_exception_leaves_chain (p : Processor) (rest : list processor)
    (all_slots : list slot) (t : raw) (args : list value) (op : value) (a b : raw)
    (fuel : nat) (h : heap) :
  (∀ name f, user_handler p name = Some f → ∀ v h, f v h = Ok v h) →
  user_handler p "process_unrecognised" = None →
  _current_slot all_slots 0 = Single p :: rest →
  wf_raw t = true → encode t = VTuple args → kids t = Some (op, a, b) →
  all_ok (dispatch_ok p) a = false → depth a < fuel →
  ∃ l n h',
    ParseTreeMultiProcessor_process (S fuel) all_slots (encode t) h
    = Raise (PtNodeNotRecognised (VRef l)) h'
    ∧ h' !! l = Some n ∧ dispatch_ok p (_op n) = false.
Proof.
  intros idle no_override Hslot W Et K A D.
  destruct (mark_phase (invoke (S fuel)) all_slots t args h W Et) as (hm & va & vb & EP & Hm).
  destruct Hm as (op' & a' & b' & nl & K' & El & Eop & Ea & Eb & Xl & Fa & Fb & Ta & Tb & _).
  rewrite K in K'. injection K' as <- <- <-.
  destruct (kids_wf _ _ _ _ K W) as (Wa & _ & _).
  destruct (process_fresh_reject p (dispatch_ok p)
              (λ v h _, idle_primitive p idle v h) (idle_pass p idle no_override)
              (idle_reject p no_override) fuel a va hm Wa A Fa D)
    as (l & h' & n & P & E & O & _).
  exists l, n, h'. split; [|done].
  unfold ParseTreeMultiProcessor_process. rewrite EP, slot_loop_step.
  rewrite decide_True by (by eapply current_slot_length).
  assert (slot_pass (invoke (S fuel)) all_slots 0 (VRef (length h)) hm
          = Raise (PtNodeNotRecognised (VRef l)) h') as ->; [|done].
  unfold slot_pass.
  assert (get_a (length h) hm = Ok va hm) as Ga.
  { rewrite <- Ea. apply get_a_pure; [done|]. by rewrite Ea. }
  step Ga. apply bind_Raise. unfold _process_in_current_slot. rewrite Hslot.
  cbn [for_each]. apply bind_Raise. cbn [invoke]. exact P.
Qed.

Lemma member_exception_leaves_chain_witness :
  ∃ l n h',
    ParseTreeMultiProcessor_process 3 [One (Single strict_plain); One (Single plain)] xyz []
    = Raise (PtNodeNotRecognised (VRef l)) h'
    ∧ h' !! l = Some n ∧ dispatch_ok strict_plain (_op n) = false.
Proof.
  refine (member_exception_leaves_chain strict_plain []
            [One (Single strict_plain); One (Single plain)]
            (RBin (VStr "x") (RUn (VStr "y") (RLeaf (VInt 1))) (RUn (VStr "z") (RLeaf (VInt 2))))
            _ (VStr "x") (RUn (VStr "y") (RLeaf (VInt 1))) (RUn (VStr "z") (RLeaf (VInt 2)))
            2 [] _ _ eq_refl eq_refl eq_refl eq_refl eq_refl _).
  - intros name f U. by rewrite (no_user_handler true) in U.
  - apply (no_user_handler true).
  - cbn. lia.
Defined.

(** ** A fourth element in a tuple *)

(** X16. The fourth element of a tuple ([None], a boolean, an integer, a
    string, a list, a tuple or a node) takes the place of the annotation
    dictionary of the node built from it.  A chain cannot work on such a
    node: [process] of a chain on a tuple of four or more elements raises
    [AttributeError] once the root node is created, before any slot runs;
    and when it is operand A that is such a tuple, the chain raises
    [AttributeError] while marking the operands. *)
Theorem fourth_element_stops_chain (call : processor → method_name → value → M value)
    (all_slots : list slot) (args : list value) (h : heap) :
  (4 ≤ length args →
     multi_process call all_slots (VTuple args) h
     = Raise AttributeError (h ++ [PtNode_init args]))
  ∧ (∀ aargs, length args < 4 → args !! 1 = Some (VTuple aargs) → 4 ≤ length aargs →
       ∃ h', multi_process call all_slots (VTuple args) h = Raise AttributeError h'
           ∧ h' !! S (length h) = Some (PtNode_init aargs)).
Proof.
  assert ((h ++ [PtNode_init args]) !! length h = Some (PtNode_init args)) as E.
  { rewrite lookup_app_r by lia. by rewrite Nat.sub_diag. }
  split.
  - intros L. unfold multi_process. step (alloc_Ok h (PtNode_init args)).
    apply bind_Raise. unfold x_getattr. step (load_Ok _ _ _ E).
    destruct args as [|v0 [|v1 [|v2 [|v3 args]]]]; cbn in L; try lia. done.
  - intros aargs L A La.
    set (n0 := PtNode_init args). set (h0 := h ++ [n0]).
    assert (_x n0 = XExtras ∅) as X0.
    { unfold n0, PtNode_init. rewrite (lookup_ge_None_2 args 3) by lia. done. }
    assert (_a n0 = VTuple aargs) as A0 by (unfold n0, PtNode_init; by rewrite A).
    assert (length h0 = S (length h)) as L0 by (unfold h0; rewrite length_app; cbn; lia).
    set (n1 := with_x n0 (XExtras (<["is_root" := VNone]> ∅))).
    set (h1 := <[length h := n1]> h0).
    assert (h1 !! length h = Some n1) as E1 by (apply list_lookup_insert_eq; lia).
    set (n2 := with_x n1 (XExtras (<["is_root" := VBool true]> (<["is_root" := VNone]> ∅)))).
    set (h2 := <[length h := n2]> h1).
    assert (h2 !! length h = Some n2) as E2
      by (apply list_lookup_insert_eq; unfold h1; rewrite length_insert; lia).
    assert (length h2 = S (length h)) as L2 by (unfold h2, h1; by rewrite !length_insert).
    set (n3 := with_a n2 (VRef (length h2))).
    set (h3 := <[length h := n3]> (h2 ++ [PtNode_init aargs])).
    assert (h3 !! length h = Some n3) as E3 by (apply lookup_linked; lia).
    assert (h3 !! length h2 = Some (PtNode_init aargs)) as E3' by (apply lookup_new; lia).
    exists h3. split; [|by rewrite <- L2].
    unfold multi_process. step (alloc_Ok h (PtNode_init args)). fold n0 h0.
    step (x_getattr_missing h0 (length h) n0 ∅ "is_root" E X0 (lookup_empty _)).
    fold n1 h1. cbn [is_None].
    step (x_setattr_Ok h1 (length h) n1 _ "is_root" (VBool true) E1 eq_refl). fold n2 h2.
    apply bind_Raise. unfold mark_operands. apply bind_Raise. unfold mark_operand_a.
    step (get_a_tuple h2 (length h) n2 aargs E2 A0). fold n3 h3. cbn [is_None].
    assert (get_a (length h) h3 = Ok (VRef (length h2)) h3) as G3
      by exact (get_a_pure h3 (length h) n3 E3 eq_refl).
    step G3. cbn [is_node]. step G3.
    unfold x_update. step (load_Ok _ _ _ E3').
    destruct aargs as [|v0 [|v1 [|v2 [|v3 aargs]]]]; cbn in La; try lia. done.
Qed.

Lemma fourth_element_stops_chain_witness :
  ParseTreeMultiProcessor_process 3 [One (Single plain)]
    (VTuple [VStr "add"; VInt 1; VInt 2; VStr "note"]) []
  = Raise AttributeError [PtNode_init [VStr "add"; VInt 1; VInt 2; VStr "note"]].
Proof.
  apply (fourth_element_stops_chain (invoke 3) [One (Single plain)]
           [VStr "add"; VInt 1; VInt 2; VStr "note"] []).
  cbn. lia.
Defined.

(** ** Marking operands that are already nodes *)

Lemma insert_alter_at (f : PtNode → PtNode) (h : heap) (k : loc) (nk : PtNode) :
  h !! k = Some nk → <[k := f nk]> h = alter f k h.
Proof.
  intros E. apply list_eq. intros i. destruct (decide (i = k)) as [->|Hi].
  - rewrite list_lookup_insert_eq by (by eapply lookup_lt_Some).
    by rewrite list_lookup_alter_eq, E.
  - rewrite list_lookup_insert_ne by done. by rewrite list_lookup_alter_ne.
Qed.

Lemma mark_in_lookup marks v (h : heap) k :
  (v = VRef k ∧ mark_in marks v h !! k = with_marks marks <$> h !! k)
  ∨ (v ≠ VRef k ∧ mark_in marks v h !! k = h !! k).
Proof.
  unfold mark_in. destruct v as [| | | | | |k']; try by right.
  destruct (decide (k' = k)) as [->|Hk].
  - left. by rewrite list_lookup_alter_eq.
  - right. split; [congruence|]. by rewrite list_lookup_alter_ne.
Qed.

Lemma x_update_marks h l n d marks :
  h !! l = Some n → _x n = XExtras d →
  x_update l marks h = Ok tt (mark_in marks (VRef l) h).
Proof.
  intros E X. rewrite (x_update_Ok _ _ _ _ _ E X). f_equal. unfold mark_in.
  rewrite <- (insert_alter_at _ _ _ _ E). unfold with_marks. by rewrite X.
Qed.

Lemma mark_operand_a_converted h l n marks :
  h !! l = Some n → is_tuple (_a n) = false →
  (∀ k, _a n = VRef k → ∃ nk d, h !! k = Some nk ∧ _x nk = XExtras d) →
  mark_operand_a l marks h = Ok tt (mark_in marks (_a n) h).
Proof.
  intros E T H. pose proof (get_a_pure _ _ _ E T) as G.
  unfold mark_operand_a. step G.
  destruct (_a n) as [| | | | | |k] eqn:Ea; cbn [is_None]; try done;
    step G; cbn [is_node]; try done.
  step G. destruct (H k eq_refl) as (nk & d & Ek & Xk). by apply x_update_marks with nk d.
Qed.

Lemma mark_operand_b_converted h l n marks :
  h !! l = Some n → is_tuple (_b n) = false →
  (∀ k, _b n = VRef k → ∃ nk d, h !! k = Some nk ∧ _x nk = XExtras d) →
  mark_operand_b l marks h = Ok tt (mark_in marks (_b n) h).
Proof.
  intros E T H. pose proof (get_b_pure _ _ _ E T) as G.
  unfold mark_operand_b. step G.
  destruct (_b n) as [| | | | | |k] eqn:Eb; cbn [is_None]; try done;
    step G; cbn [is_node]; try done.
  step G. destruct (H k eq_refl) as (nk & d & Ek & Xk). by apply x_update_marks with nk d.
Qed.

(** X17. [mark_operands] on a node whose operands are converted already:
    every operand that is a node gets the marks, which replace its
    annotations of the same names and leave the others; an operand that is
    a primitive or [None] is passed over.  No node is created, and operator
    and operands of every node stay as they are. *)
Theorem mark_operands_on_converted_operands (h : heap) (l : loc) (n : PtNode)
    (marks : gmap string value) :
  h !! l = Some n → is_tuple (_a n) = false → is_tuple (_b n) = false →
  (∀ k, _a n = VRef k ∨ _b n = VRef k → ∃ nk d, h !! k = Some nk ∧ _x nk = XExtras d) →
  mark_operands l marks h = Ok tt (mark_in marks (_b n) (mark_in marks (_a n) h))
  ∧ (∀ k nk d key, _a n = VRef k ∨ _b n = VRef k → h !! k = Some nk → _x nk = XExtras d →
       ∃ nk', mark_in marks (_b n) (mark_in marks (_a n) h) !! k = Some nk'
            ∧ _op nk' = _op nk ∧ _a nk' = _a nk ∧ _b nk' = _b nk
            ∧ ∃ d', _x nk' = XExtras d'
                  ∧ d' !! key = match marks !! key with Some v => Some v | None => d !! key end).
Proof.
  intros E Ta Tb H.
  assert (∀ nk, _op (with_marks marks nk) = _op nk ∧ _a (with_marks marks nk) = _a nk
                ∧ _b (with_marks marks nk) = _b nk) as Keep
    by (intros nk; unfold with_marks; by destruct (_x nk)).
  split.
  - unfold mark_operands.
    step (mark_operand_a_converted h l n marks E Ta (λ k Hk, H k (or_introl Hk))).
    set (h1 := mark_in marks (_a n) h).
    assert (∃ n1, h1 !! l = Some n1 ∧ _b n1 = _b n) as (n1 & E1 & B1).
    { unfold h1. destruct (mark_in_lookup marks (_a n) h l) as [[_ ->]|[_ ->]]; rewrite E.
      - eexists. split; [done|]. apply Keep.
      - by exists n. }
    rewrite <- B1. apply (mark_operand_b_converted h1 l n1 marks E1); [by rewrite B1|].
    intros k Hk. rewrite B1 in Hk. destruct (H k (or_intror Hk)) as (nk & d & Ek & Xk).
    unfold h1. destruct (mark_in_lookup marks (_a n) h k) as [[_ ->]|[_ ->]]; rewrite Ek.
    + eexists _, _. split; [done|]. unfold with_marks. rewrite Xk. done.
    + by exists nk, d.
  - intros k nk d key Hk Ek Xk.
    assert (∀ d0, (marks ∪ d0) !! key
                  = match marks !! key with Some v => Some v | None => d0 !! key end) as U.
    { intros d0. rewrite lookup_union. destruct (marks !! key), (d0 !! key); done. }
    assert (∀ n0 d0, _x n0 = XExtras d0 →
              _x (with_marks marks n0) = XExtras (marks ∪ d0)) as Xm
      by (intros n0 d0 X0; unfold with_marks; by rewrite X0).
    destruct (mark_in_lookup marks (_b n) (mark_in marks (_a n) h) k) as [[Hb ->]|[Hb ->]];
      destruct (mark_in_lookup marks (_a n) h k) as [[Ha ->]|[Ha ->]]; rewrite Ek; cbn.
    + eexists. split; [done|].
      destruct (Keep (with_marks marks nk)) as (-> & -> & ->).
      destruct (Keep nk) as (-> & -> & ->). repeat (split; [done|]).
      eexists. split; [apply Xm, Xm, Xk|]. rewrite !U. by destruct (marks !! key).
    + eexists. split; [done|]. destruct (Keep nk) as (-> & -> & ->). repeat (split; [done|]).
      eexists. split; [apply Xm, Xk|]. by rewrite U.
    + eexists. split; [done|]. destruct (Keep nk) as (-> & -> & ->). repeat (split; [done|]).
      eexists. split; [apply Xm, Xk|]. by rewrite U.
    + tauto.
Qed.

Lemma mark_operands_on_converted_operands_witness :
  let h := [ {| _op := VStr "neg"; _a := VRef 1; _b := VNone; _x := XExtras ∅ |};
             {| _op := VStr "lit"; _a := VInt 1; _b := VNone;
                _x := XExtras {["is_root" := VBool true]} |} ] in
  mark_operands 0 {["is_root" := VBool false]} h
  = Ok tt (mark_in {["is_root" := VBool false]} (VRef 1) h).
Proof.
  intros h.
  refine (proj1 (mark_operands_on_converted_operands h 0 _ {["is_root" := VBool false]}
                   eq_refl eq_refl eq_refl _)).
  intros k [[= <-]|[=]]. by eexists _, _.
Defined.

(** ** From a tuple through a chain and back *)

Lemma settled_is_None N0 h v t : settled N0 h v t → is_None v = is_None (encode t).
Proof.
  intros [F|(lo & hi & _ & _ & R)]; [by eapply fresh_at_is_None|].
  unfold rooted in R. destruct t; cbn in R; [by subst|..]; by destruct R as (? & ? & -> & _).
Qed.

Lemma to_tuple_settled fuel N0 h v t :
  wf_raw t = true → settled N0 h v t → (∀ l, v = VRef l → l < N0) → depth t ≤ fuel →
  ∃ h1, (match v with VRef l' => to_tuple fuel l' | _ => mret v end) h = Ok (canon t) h1
      ∧ (∀ l, v = VRef l → grows l h h1)
      ∧ (is_node v = false → h1 = h).
Proof.
  intros W [F|(lo & hi & Hlo & Hhi & R)] Hv D.
  - by apply to_tuple_fresh.
  - exists h. split; [|split; [intros l _; apply grows_refl|done]].
    apply (to_tuple_mat fuel 0 hi); [|done].
    eapply rooted_mat; [done|done|lia|]. intros l ->. specialize (Hv l eq_refl). lia.
Qed.

(** X18. A chain of processors that let every node through as it is turns
    the tuple of a tree into nodes without changing the tree: [process] of
    the chain returns the root, and [to_tuple] of that root gives the tuple
    back, with a second operand [None] left out.  This holds for any number
    of slots, also for none, when only the operands of the root have been
    converted. *)
Theorem chain_then_to_tuple (t : raw) (args : list value) (fuel : nat) (h : heap)
    (all_slots : list slot) :
  wf_raw t = true → encode t = VTuple args →
  Forall passive_slot all_slots → depth t < fuel →
  ∃ h' h'',
    ParseTreeMultiProcessor_process fuel all_slots (encode t) h = Ok (VRef (length h)) h'
    ∧ to_tuple fuel (length h) h' = Ok (canon t) h''.
Proof.
  intros W Et Hs D. destruct fuel as [|fuel]; [lia|].
  destruct (mark_phase (invoke (S fuel)) all_slots t args h W Et) as (hm & va & vb & EP & Hm).
  destruct Hm as (op & a & b & nl & K & El & Eop & Ea & Eb & Xl & Fa & Fb & Ta & Tb
                  & Hlen & Hold & Hnew & Hch & Hdis).
  destruct (kids_wf _ _ _ _ K W) as (Wa & Wb & Dt).
  assert (chain_inv h op a b va vb (length hm) hm) as Inv.
  { split; [by exists nl|]. split; [by left|]. split; [by left|]. split; [done|].
    split; [done|]. split; [intros k Hk; by destruct (Hch k Hk)|].
    intros k n Hk E. apply lookup_lt_Some in E. lia. }
  destruct (slot_loop_inv h op a b va vb (length hm) fuel Wa Wb ltac:(lia) ltac:(lia)
              (λ k E, proj1 (Hch k (or_introl E))) (λ k E, proj1 (Hch k (or_intror E)))
              Hdis all_slots _ 0 hm eq_refl Hs Inv) as (h' & L & Inv').
  destruct Inv' as ((nl' & El' & Eop' & Ea' & Eb' & _) & Sa & Sb & _).
  assert (∀ l, va = VRef l → l < length hm) as Hva
    by (intros l Hl; destruct (Hch l (or_introl Hl)) as [? _]; lia).
  assert (∀ l, vb = VRef l → l < length hm) as Hvb
    by (intros l Hl; destruct (Hch l (or_intror Hl)) as [? _]; lia).
  assert (get_a (length h) h' = Ok va h') as Ga.
  { rewrite <- Ea'. apply get_a_pure; [done|]. by rewrite Ea'. }
  assert (get_b (length h) h' = Ok vb h') as Gb.
  { rewrite <- Eb'. apply get_b_pure; [done|]. by rewrite Eb'. }
  destruct (to_tuple_settled fuel _ h' va a Wa Sa Hva ltac:(lia)) as (h1 & Pa & Gra & Na).
  assert (settled (length hm) h1 vb b) as Sb1.
  { destruct va as [| | | | | |la]; try (by rewrite Na).
    apply (settled_stable _ h' h1 vb b la); [done|done|by apply Gra|by apply Hva|].
    intros ->. by apply (Hdis la). }
  destruct (to_tuple_settled fuel _ h1 vb b Wb Sb1 Hvb ltac:(lia)) as (h2 & Pb & _).
  exists h', (if is_None (encode b) then h1 else h2).
  unfold ParseTreeMultiProcessor_process. rewrite EP. split; [done|].
  cbn [to_tuple]. step (get_op_Ok _ _ _ El'). unfold operands. step Gb.
  rewrite (settled_is_None _ _ _ _ Sb), (canon_kids _ _ _ _ K), Eop'.
  destruct (is_None (encode b)).
  - step Ga. cbn [mapM]. by step Pa.
  - step Ga. step Gb. cbn [mapM]. step Pa. by step Pb.
Qed.

Lemma chain_then_to_tuple_witness :
  ∃ h' h'',
    ParseTreeMultiProcessor_process 3 [One (Single plain); Many [Single plain]] xyz []
    = Ok (VRef 0) h'
    ∧ to_tuple 3 0 h' = Ok xyz h''.
Proof.
  refine (chain_then_to_tuple
            (RBin (VStr "x") (RUn (VStr "y") (RLeaf (VInt 1))) (RUn (VStr "z") (RLeaf (VInt 2))))
            _ 3 [] [One (Single plain); Many [Single plain]] eq_refl eq_refl _ _).
  - repeat constructor; exists plain; (split; [reflexivity|apply plain_declines]).
  - cbn. lia.
Defined.
